(** * Evaluation orchestration pipeline of PruningExplainability

    A shallow embedding of [src/main.py]: checkpoint discovery
    ([load_latest_checkpoints]) and the evaluation driver ([eval_models]),
    together with the properties of the pipeline that the design document
    states about them.

    Python values are modelled as follows.
    - [str] is [string]; f-strings are string concatenations.
    - [dict] is an association list kept in insertion order with unique
      keys ([Dict.set] overwrites in place, as CPython does).
    - The operating system, [matplotlib.pyplot], the standard output, the
      random generator used for sampling and the object allocator form the
      [world] that every statement of the program transforms.
    - A Python exception is the [Raise] outcome of a computation; nothing
      in [src/main.py] catches one, so [bind] propagates it. *)

From Stdlib Require Import ZArith Lia Ascii String.
From stdpp Require Import base option list strings pretty gmap fin_maps.

#[local] Set Warnings "-clear-no-such-hyp".
#[local] Set Default Proof Using "Type".

Local Open Scope string_scope.
Local Open Scope list_scope.
Local Open Scope nat_scope.

(** ** Python dictionaries *)

Module Dict.

Definition t (V : Type) : Type := list (string * V).

Definition empty {V} : t V := [].

(** [d[k] = v]: a present key keeps its position, a new key goes last. *)
Fixpoint set {V} (d : t V) (k : string) (v : V) : t V :=
  match d with
  | [] => [(k, v)]
  | (k', v') :: d' =>
      if decide (k' = k) then (k, v) :: d' else (k', v') :: set d' k v
  end.

Fixpoint get {V} (d : t V) (k : string) : option V :=
  match d with
  | [] => None
  | (k', v') :: d' => if decide (k' = k) then Some v' else get d' k
  end.

Definition keys {V} (d : t V) : list string := d.*1.
Definition values {V} (d : t V) : list V := d.*2.
Definition items {V} (d : t V) : list (string * V) := d.
Definition len {V} (d : t V) : nat := length d.

(** The invariant of a dictionary: no key occurs twice. *)
Definition wf {V} (d : t V) : Prop := NoDup (keys d).

End Dict.

(** ** Exceptions and outcomes *)

Inductive exn : Type :=
| FileNotFoundError (msg : string)
| NotADirectoryError (msg : string)
| IsADirectoryError (msg : string)
| KeyError (key : string)
| CollaboratorError (msg : string).

(** [Unfinished] is the outcome of a [while] loop cut off by its fuel; the
  development shows that the program never produces it. *)
Inductive result (A : Type) : Type :=
| Return (a : A)
| Raise (e : exn)
| Unfinished.
Arguments Return {A} a.
Arguments Raise {A} e.
Arguments Unfinished {A}.

(** ** Explainer classes

    [from explainers.explanation_methods import SHAP, LIME, IG] *)

Inductive explainer_class : Type := SHAP | LIME | IG.

Global Instance explainer_class_eq_dec : EqDecision explainer_class.
Proof. solve_decision. Defined.

(** [explainer.__name__] *)
Definition cls_name (c : explainer_class) : string :=
  match c with SHAP => "SHAP" | LIME => "LIME" | IG => "IG" end.

(** ** posixpath.join, for two components *)

Definition endswith_sep (s : string) : bool :=
  match String.rev s with
  | String c _ => bool_decide (c = "/"%char)
  | EmptyString => false
  end.

Definition startswith_sep (s : string) : bool :=
  match s with
  | String c _ => bool_decide (c = "/"%char)
  | EmptyString => false
  end.

Definition path_join (a b : string) : string :=
  if startswith_sep b then b
  else if bool_decide (a = "") || endswith_sep a then a +:+ b
  else a +:+ "/" +:+ b.

(** ** posixpath.dirname

    The directory part of a path: what precedes its last separator,
    without trailing separators unless it consists of separators only.
    The directory part of a path without a separator is empty and stands
    for the working directory. *)

Fixpoint has_sep (s : string) : bool :=
  match s with
  | String c s' => bool_decide (c = "/"%char) || has_sep s'
  | EmptyString => false
  end.

(** [p[:p.rfind('/') + 1]] *)
Fixpoint upto_last_sep (p : string) : string :=
  match p with
  | String c p' => if has_sep p then String c (upto_last_sep p') else ""
  | EmptyString => ""
  end.

(** [head == '/' * len(head)] *)
Fixpoint only_seps (s : string) : bool :=
  match s with
  | String c s' => bool_decide (c = "/"%char) && only_seps s'
  | EmptyString => true
  end.

(** [head.rstrip('/')] *)
Fixpoint rstrip_sep (s : string) : string :=
  match s with
  | String c s' =>
      match rstrip_sep s' with
      | EmptyString => if bool_decide (c = "/"%char) then "" else String c ""
      | r => String c r
      end
  | EmptyString => ""
  end.

Definition dirname (p : string) : string :=
  let head := upto_last_sep p in
  if only_seps head then head else rstrip_sep head.

(** ** Stable sort, descending by key

    [sorted(xs, key=f, reverse=True)] is stable: elements with equal keys
    keep their relative order.  Insertion from the right, stepping over
    strictly larger keys only, computes exactly that list. *)

Fixpoint insert_desc {A} (x : Z * A) (l : list (Z * A)) : list (Z * A) :=
  match l with
  | [] => [x]
  | y :: l' => if (x.1 <? y.1)%Z then y :: insert_desc x l' else x :: y :: l'
  end.

Definition sort_desc {A} (l : list (Z * A)) : list (Z * A) :=
  foldr insert_desc [] l.

(** Truth value of an [Optional[str]]: [None] and [''] are false. *)
Definition truthy (o : option string) : bool :=
  match o with
  | Some s => negb (bool_decide (s = ""))
  | None => false
  end.

(** [f'{arch}'] for an [Optional[str]] *)
Definition str_of_arch (o : option string) : string :=
  match o with Some s => s | None => "None" end.

Section Pipeline.

(** The collaborators' data: loaded models, the tokenizer, the device,
    the test set, infidelity scores (floats the program never computes
    with), the sampling fraction and the state of the random generator. *)
Context {Model Tokenizer Device Dataset Score Ptg Rng : Type}.

(** [model.__class__.__name__] *)
Variable class_name : Model -> string.

(** [f'{infid}'] *)
Variable str_of_score : Score -> string.

(** ** matplotlib.pyplot's current figure

    pyplot keeps one current figure; [plt.bar] adds bars to its axes,
    [plt.xticks], [plt.xlabel], [plt.ylabel] and [plt.title] replace the
    respective property, and [plt.savefig] writes the figure as it is
    and leaves it current. *)
Record figure : Type := Figure {
  fig_bars : list (nat * Score);
  fig_xticks : option (list nat * list string);
  fig_xlabel : string;
  fig_ylabel : string;
  fig_title : string }.

Definition fresh_figure : figure :=
  {| fig_bars := []; fig_xticks := None;
     fig_xlabel := ""; fig_ylabel := ""; fig_title := "" |}.

(** ** The file system: a finite map from paths to inodes *)
Inductive file_data : Type :=
| Directory (entries : list string)
| Regular
| Image (fig : figure) (dpi : nat).

Record inode : Type := Inode { st_mtime : Z; st_data : file_data }.

Local Abbreviation filesystem := (gmap string inode).

Definition isdir (fs : filesystem) (p : string) : bool :=
  match fs !! p with
  | Some (Inode _ (Directory _)) => true
  | _ => false
  end.

Definition path_exists (fs : filesystem) (p : string) : bool :=
  bool_decide (is_Some (fs !! p)).

Definition listdir (fs : filesystem) (p : string) : exn + list string :=
  match fs !! p with
  | Some (Inode _ (Directory entries)) => inr entries
  | Some _ => inl (NotADirectoryError p)
  | None => inl (FileNotFoundError p)
  end.

Definition getmtime (fs : filesystem) (p : string) : exn + Z :=
  match fs !! p with
  | Some i => inr (st_mtime i)
  | None => inl (FileNotFoundError p)
  end.

(** [AutoModelForSequenceClassification.from_pretrained]: reads the
    checkpoint from disk and returns a model or raises. *)
Variable from_pretrained : filesystem -> string -> exn + Model.

(** ** Explainers and evaluators *)

(** Modelled from the spec: the explainer classes of
    [explainers.explanation_methods], which are not part of [src/main.py].
    An Explainer is constructed from (model, tokenizer, device);
    construction creates the object and does nothing else.  [exp_id] is
    the object's identity. *)
Record Explainer : Type := {
  exp_id : nat;
  exp_class : explainer_class;
  exp_model : Model;
  exp_tokenizer : Tokenizer;
  exp_device : Device }.

(** Modelled from the spec: [evaluations.evaluator.Evaluator], which is
    not part of [src/main.py].  An Evaluator wraps one Explainer, which
    it owns; [ev_id] is the object's identity. *)
Record Evaluator : Type := {
  ev_id : nat;
  ev_explainer : Explainer }.

(** [Evaluator.evaluate_infidelity_mask_top_k(test_set, k, ptg)]: the
    metric draws its sample with the random generator and returns one
    score or raises. *)
Variable infidelity_mask_top_k :
  Evaluator -> Dataset -> nat -> Ptg -> Rng -> (exn + Score) * Rng.

(** ** The world *)
Record world : Type := World {
  w_fs : filesystem;
  w_clock : Z;
  w_figure : figure;
  w_stdout : list string;
  w_rng : Rng;
  w_next_id : nat;
  w_load_calls : list string }.

Definition with_fs (fs : filesystem) (w : world) : world :=
  World fs (w_clock w) (w_figure w) (w_stdout w) (w_rng w) (w_next_id w)
    (w_load_calls w).

Definition with_figure (f : figure) (w : world) : world :=
  World (w_fs w) (w_clock w) f (w_stdout w) (w_rng w) (w_next_id w)
    (w_load_calls w).

Definition with_stdout (o : list string) (w : world) : world :=
  World (w_fs w) (w_clock w) (w_figure w) o (w_rng w) (w_next_id w)
    (w_load_calls w).

Definition with_rng (g : Rng) (w : world) : world :=
  World (w_fs w) (w_clock w) (w_figure w) (w_stdout w) g (w_next_id w)
    (w_load_calls w).

Definition with_next_id (n : nat) (w : world) : world :=
  World (w_fs w) (w_clock w) (w_figure w) (w_stdout w) (w_rng w) n
    (w_load_calls w).

Definition with_load_calls (l : list string) (w : world) : world :=
  World (w_fs w) (w_clock w) (w_figure w) (w_stdout w) (w_rng w)
    (w_next_id w) l.

(** The world of a new process: nothing printed, a fresh figure, no
    object allocated, no checkpoint read. *)
Definition initial_world (fs : filesystem) (now : Z) (g : Rng) : world :=
  World fs now fresh_figure [] g 0 [].

(** ** The monad of statements *)
Definition M (A : Type) : Type := world -> result A * world.

Definition ret {A} (a : A) : M A := fun w => (Return a, w).

Definition bind {A B} (m : M A) (k : A -> M B) : M B :=
  fun w =>
    match m w with
    | (Return a, w') => k a w'
    | (Raise e, w') => (Raise e, w')
    | (Unfinished, w') => (Unfinished, w')
    end.

Definition raise {A} (e : exn) : M A := fun w => (Raise e, w).

Definition lift_exn {A} (r : exn + A) : M A :=
  match r with inl e => raise e | inr a => ret a end.

Notation "'let*' x ':=' c1 'in' c2" := (bind c1 (fun x => c2))
  (at level 10, x pattern, c1 at level 100, c2 at level 200,
   format "'[v' 'let*'  x  ':='  c1  'in' '/' c2 ']'").

Notation "c1 ';;;' c2" := (bind c1 (fun _ => c2))
  (at level 100, c2 at level 200, right associativity).

(** [for x in xs: acc = body(acc, x)] *)
Fixpoint for_each {A B} (xs : list B) (body : A -> B -> M A) (acc : A)
  : M A :=
  match xs with
  | [] => ret acc
  | x :: xs' => let* acc' := body acc x in for_each xs' body acc'
  end.

(** [[f(x) for x in xs]], left to right *)
Fixpoint map_each {A B} (f : A -> M B) (xs : list A) : M (list B) :=
  match xs with
  | [] => ret []
  | x :: xs' =>
      let* y := f x in
      let* ys := map_each f xs' in
      ret (y :: ys)
  end.

(** ** Primitive statements *)

Definition print (s : string) : M unit :=
  fun w => (Return tt, with_stdout (w_stdout w ++ [s]) w).

Definition os_path_isdir (p : string) : M bool :=
  fun w => (Return (isdir (w_fs w) p), w).

Definition os_path_exists (p : string) : M bool :=
  fun w => (Return (path_exists (w_fs w) p), w).

Definition os_listdir (p : string) : M (list string) :=
  fun w => lift_exn (listdir (w_fs w) p) w.

Definition os_path_getmtime (p : string) : M Z :=
  fun w => lift_exn (getmtime (w_fs w) p) w.

(** Every call of [from_pretrained] is recorded in [w_load_calls]. *)
Definition load_pretrained (ckpt : string) : M Model :=
  fun w =>
    lift_exn (from_pretrained (w_fs w) ckpt)
      (with_load_calls (w_load_calls w ++ [ckpt]) w).

(** Object creation: the new object gets the next free identity. *)
Definition new_object : M nat :=
  fun w => (Return (w_next_id w), with_next_id (S (w_next_id w)) w).

Definition new_explainer (cls : explainer_class) (model : Model)
    (tokenizer : Tokenizer) (device : Device) : M Explainer :=
  let* i := new_object in
  ret {| exp_id := i; exp_class := cls; exp_model := model;
         exp_tokenizer := tokenizer; exp_device := device |}.

Definition new_evaluator (e : Explainer) : M Evaluator :=
  let* i := new_object in
  ret {| ev_id := i; ev_explainer := e |}.

Definition evaluate_infidelity_mask_top_k (ev : Evaluator)
    (test_set : Dataset) (k : nat) (ptg : Ptg) : M Score :=
  fun w =>
    let '(r, g) := infidelity_mask_top_k ev test_set k ptg (w_rng w) in
    lift_exn r (with_rng g w).

(** [plt.bar(x, height)]; both sequences have [len(infidelities)]
    elements at the only call site. *)
Definition plt_bar (x : list nat) (height : list Score) : M unit :=
  fun w =>
    let f := w_figure w in
    (Return tt,
     with_figure
       (Figure (fig_bars f ++ zip x height) (fig_xticks f) (fig_xlabel f)
          (fig_ylabel f) (fig_title f)) w).

Definition plt_xticks (ticks : list nat) (labels : list string) : M unit :=
  fun w =>
    let f := w_figure w in
    (Return tt,
     with_figure
       (Figure (fig_bars f) (Some (ticks, labels)) (fig_xlabel f)
          (fig_ylabel f) (fig_title f)) w).

Definition plt_xlabel (s : string) : M unit :=
  fun w =>
    let f := w_figure w in
    (Return tt,
     with_figure
       (Figure (fig_bars f) (fig_xticks f) s (fig_ylabel f) (fig_title f))
       w).

Definition plt_ylabel (s : string) : M unit :=
  fun w =>
    let f := w_figure w in
    (Return tt,
     with_figure
       (Figure (fig_bars f) (fig_xticks f) (fig_xlabel f) s (fig_title f))
       w).

Definition plt_title (s : string) : M unit :=
  fun w =>
    let f := w_figure w in
    (Return tt,
     with_figure
       (Figure (fig_bars f) (fig_xticks f) (fig_xlabel f) (fig_ylabel f) s)
       w).

(** [open(path, 'wb')], as [plt.savefig] calls it: the directory part of
    [path] has to be a directory, and [path] itself must not be one.
    Python's [str] of the error is the message. *)
Definition open_for_writing (fs : filesystem) (path : string) : exn + unit :=
  let quoted := "'" +:+ path +:+ "'" in
  let parent := dirname path in
  if isdir fs path then
    inl (IsADirectoryError ("[Errno 21] Is a directory: " +:+ quoted))
  else if bool_decide (parent = "") || isdir fs parent then inr tt
  else if path_exists fs parent then
    inl (NotADirectoryError ("[Errno 20] Not a directory: " +:+ quoted))
  else
    inl (FileNotFoundError
           ("[Errno 2] No such file or directory: " +:+ quoted)).

(** [plt.savefig(path, format='png', dpi=dpi)] creates or replaces the
    file at [path], or raises when the file cannot be opened; it creates
    no directory.  The inode of the directory that receives the file is
    left as it is: the program lists no directory after it has written a
    chart. *)
Definition plt_savefig (path : string) (dpi : nat) : M unit :=
  let* _ := fun w => lift_exn (open_for_writing (w_fs w) path) w in
  fun w =>
    (Return tt,
     with_fs
       (<[path := Inode (w_clock w) (Image (w_figure w) dpi)]> (w_fs w)) w).

(** ** [load_latest_checkpoints] *)

(** [sorted(paths, key=os.path.getmtime, reverse=True)]: the keys are
    computed first, left to right, then the list is sorted. *)
Definition sorted_by_mtime_desc (paths : list string) : M (list string) :=
  let* keys := map_each os_path_getmtime paths in
  ret ((sort_desc (zip keys paths)).*2).

(** The body of the loop over [os.listdir(path)] (lines 90-111). *)
Definition load_variant (path : string)
    (st : Dict.t Model * option string) (model_dir : string)
  : M (Dict.t Model * option string) :=
  let '(models, arch) := st in
  let model_path := path_join path model_dir in
  let* d := os_path_isdir model_path in
  if d then
    let* entries := os_listdir model_path in
    let* checkpoints :=
      sorted_by_mtime_desc (path_join model_path <$> entries) in
    match checkpoints with
    | latest_checkpoint :: _ =>
        let* model := load_pretrained latest_checkpoint in
        let models := Dict.set models model_dir model in
        print ("Loaded " +:+ model_path +:+ "/" +:+ latest_checkpoint) ;;;
        if negb (truthy arch)
        then ret (models, Some (class_name model))
        else ret (models, arch)
    | [] => ret (models, arch)
    end
  else ret (models, arch).

Definition load_latest_checkpoints (path : string)
  : M (Dict.t Model * option string) :=
  let models := Dict.empty in
  let arch := None in
  let* d := os_path_isdir path in
  if negb d then
    raise (FileNotFoundError
             ("The directory '" +:+ path +:+
              "' does not exist or is not a directory."))
  else
    let* model_dirs := os_listdir path in
    for_each model_dirs (load_variant path) (models, arch).

(** ** [eval_models] *)

(** [evaluators_dict[key][name] = evaluator] *)
Definition setitem2 {V} (d : Dict.t (Dict.t V)) (key name : string) (v : V)
  : M (Dict.t (Dict.t V)) :=
  match Dict.get d key with
  | Some row => ret (Dict.set d key (Dict.set row name v))
  | None => raise (KeyError key)
  end.

(** Lines 32-34: one explainer and one evaluator per model. *)
Definition add_evaluator (tokenizer : Tokenizer) (device : Device)
    (explainer : explainer_class)
    (evaluators_dict : Dict.t (Dict.t Evaluator))
    (item : string * Model) : M (Dict.t (Dict.t Evaluator)) :=
  let '(name, model) := item in
  let* e := new_explainer explainer model tokenizer device in
  let* evaluator := new_evaluator e in
  setitem2 evaluators_dict (cls_name explainer) name evaluator.

(** Lines 30-34. *)
Definition add_explainer (models : Dict.t Model) (tokenizer : Tokenizer)
    (device : Device) (evaluators_dict : Dict.t (Dict.t Evaluator))
    (explainer : explainer_class) : M (Dict.t (Dict.t Evaluator)) :=
  let evaluators_dict :=
    Dict.set evaluators_dict (cls_name explainer) Dict.empty in
  for_each (Dict.items models) (add_evaluator tokenizer device explainer)
    evaluators_dict.

(** Lines 29-34: the evaluator matrix. *)
Definition build_evaluators (explainers : list explainer_class)
    (models : Dict.t Model) (tokenizer : Tokenizer) (device : Device)
  : M (Dict.t (Dict.t Evaluator)) :=
  for_each explainers (add_explainer models tokenizer device) Dict.empty.

(** Lines 39-43, one iteration. *)
Definition score_model (exp : string) (test_set : Dataset) (ptg : Ptg)
    (infidelities : Dict.t Score) (item : string * Evaluator)
  : M (Dict.t Score) :=
  let '(model, eval) := item in
  let* infid := evaluate_infidelity_mask_top_k eval test_set 1 ptg in
  print ("Infidelity of " +:+ exp +:+ " explanations of " +:+ model +:+
         " model: " +:+ str_of_score infid) ;;;
  ret (Dict.set infidelities model infid).

(** Lines 38-43: the infidelity of every model under one explainer. *)
Definition collect_infidelities (exp : string)
    (evaluators : Dict.t Evaluator) (test_set : Dataset) (ptg : Ptg)
  : M (Dict.t Score) :=
  for_each (Dict.items evaluators) (score_model exp test_set ptg) Dict.empty.

(** Lines 45-50. *)
Definition bar_chart (exp : string) (arch : option string)
    (infidelities : Dict.t Score) : M unit :=
  plt_bar (seq 0 (Dict.len infidelities)) (Dict.values infidelities) ;;;
  plt_xticks (seq 0 (Dict.len infidelities)) (Dict.keys infidelities) ;;;
  plt_xlabel "Model" ;;;
  plt_ylabel "Infidelity" ;;;
  plt_title ("Infidelity of " +:+ exp +:+
             " Explanations for Differently Pruned Versions of " +:+
             str_of_arch arch).

(** [f'{save_path}_{counter}{ext}'] *)
Definition suffixed (save_path ext : string) (counter : N) : string :=
  save_path +:+ "_" +:+ pretty counter +:+ ext.

(** Lines 59-61: [while os.path.exists(file_path): ...], with fuel. *)
Fixpoint probe (fuel : nat) (fs : filesystem) (save_path ext : string)
    (file_path : string) (counter : N) : option string :=
  match fuel with
  | O => None
  | S fuel' =>
      if path_exists fs file_path
      then probe fuel' fs save_path ext (suffixed save_path ext counter)
             (counter + 1)%N
      else Some file_path
  end.

(** Lines 57-61.  A file system with [n] paths stops the loop within
    [n + 1] tests, see [probe_terminates]. *)
Definition unique_file_path (save_path ext : string) : M string :=
  fun w =>
    match probe (S (size (w_fs w))) (w_fs w) save_path ext
            (save_path +:+ ext) 1%N with
    | Some file_path => (Return file_path, w)
    | None => (Unfinished, w)
    end.

(** Lines 52-64. *)
Definition save_chart (exp : string) (arch : option string) : M unit :=
  let save_path := "results/figs/" +:+ exp +:+ "_topk_" +:+ str_of_arch arch in
  let ext := ".png" in
  let* file_path := unique_file_path save_path ext in
  plt_savefig file_path 300 ;;;
  print ("Chart saved to " +:+ file_path).

(** Lines 36-64, one iteration. *)
Definition evaluate_explainer (arch : option string) (test_set : Dataset)
    (ptg : Ptg) (_ : unit) (item : string * Dict.t Evaluator) : M unit :=
  let '(exp, evaluators) := item in
  print ("Evaluating infidelity of " +:+ exp +:+ " explanations...") ;;;
  let* infidelities := collect_infidelities exp evaluators test_set ptg in
  bar_chart exp arch infidelities ;;;
  save_chart exp arch.

(** Lines 36-64. *)
Definition evaluate_all (evaluators_dict : Dict.t (Dict.t Evaluator))
    (arch : option string) (test_set : Dataset) (ptg : Ptg) : M unit :=
  for_each (Dict.items evaluators_dict)
    (evaluate_explainer arch test_set ptg) tt.

Definition eval_models (path : string) (tokenizer : Tokenizer)
    (explainers : list explainer_class) (test_set : Dataset)
    (device : Device) (ptg : Ptg) : M unit :=
  print ("Loading models from " +:+ path) ;;;
  let* (models, arch) := load_latest_checkpoints path in
  print ("Creating evaluators for explanations of " +:+ str_of_arch arch +:+
         " models...") ;;;
  let* evaluators_dict := build_evaluators explainers models tokenizer device in
  evaluate_all evaluators_dict arch test_set ptg.

(** ** Notions used to state the properties *)

(** [c] is a newest entry of the directory [dir]: the path of one of its
    entries, with a modification time that no entry of [dir] exceeds. *)
Definition newest (fs : filesystem) (dir : string) (c : string) : Prop :=
  ∃ entries name t,
    listdir fs dir = inr entries ∧ name ∈ entries ∧
    c = path_join dir name ∧ getmtime fs c = inr t ∧
    ∀ e, e ∈ entries →
      ∃ t', getmtime fs (path_join dir e) = inr t' ∧ (t' ≤ t)%Z.

(** Two worlds that differ at most in what was printed and in the record
    of the checkpoints read. *)
Definition same_resources (w w' : world) : Prop :=
  w_fs w' = w_fs w ∧ w_clock w' = w_clock w ∧ w_figure w' = w_figure w ∧
  w_rng w' = w_rng w ∧ w_next_id w' = w_next_id w.

(** A model [m] was loaded for the variant [d] of [path]: from a newest
    entry of the variant's directory. *)
Definition loaded_from (fs : filesystem) (path : string)
    (dirs : list string) (d : string) (m : Model) : Prop :=
  d ∈ dirs ∧
  ∃ c, newest fs (path_join path d) c ∧ from_pretrained fs c = inr m.

(** The paths that lines 57-61 test, in order: [save_path + ext], then
    [save_path_1ext], [save_path_2ext], ... *)
Definition candidate (save_path ext : string) (i : nat) : string :=
  match i with
  | O => save_path +:+ ext
  | S _ => suffixed save_path ext (N.of_nat i)
  end.

(** [f'results/figs/{exp}_topk_{arch}'] *)
Definition chart_base (exp : string) (arch : option string) : string :=
  "results/figs/" +:+ exp +:+ "_topk_" +:+ str_of_arch arch.

(** The directory that receives the chart: the directory part of its
    path. *)
Definition chart_dir (exp : string) (arch : option string) : string :=
  dirname (chart_base exp arch).

(** Two file systems hold the same paths, and the same directories among
    them; what the files hold may differ. *)
Definition same_paths (fs1 fs2 : filesystem) : Prop :=
  ∀ p, path_exists fs1 p = path_exists fs2 p ∧ isdir fs1 p = isdir fs2 p.

(** [f'Infidelity of {exp} Explanations for Differently Pruned Versions of {arch}'] *)
Definition chart_title (exp : string) (arch : option string) : string :=
  "Infidelity of " +:+ exp +:+
  " Explanations for Differently Pruned Versions of " +:+ str_of_arch arch.

(** The current figure after lines 46-50 were run on the figure [f]. *)
Definition drawn (f : figure) (exp : string) (arch : option string)
    (infidelities : Dict.t Score) : figure :=
  {| fig_bars :=
       fig_bars f ++
       zip (seq 0 (Dict.len infidelities)) (Dict.values infidelities);
     fig_xticks :=
       Some (seq 0 (Dict.len infidelities), Dict.keys infidelities);
     fig_xlabel := "Model";
     fig_ylabel := "Infidelity";
     fig_title := chart_title exp arch |}.

(** The line printed before the scores of one explainer are collected. *)
Definition announce (exp : string) (w : world) : world :=
  with_stdout
    (w_stdout w ++ ["Evaluating infidelity of " +:+ exp +:+ " explanations..."])
    w.

(** The evaluator created for [model] when [n] is the next free identity:
    its explainer is object [n], the evaluator itself object [n + 1]. *)
Definition make_evaluator (tokenizer : Tokenizer) (device : Device)
    (cls : explainer_class) (n : nat) (model : Model) : Evaluator :=
  {| ev_id := S n;
     ev_explainer :=
       {| exp_id := n; exp_class := cls; exp_model := model;
          exp_tokenizer := tokenizer; exp_device := device |} |}.

(** The row of one explainer class over the items of [models]. *)
Fixpoint make_row (tokenizer : Tokenizer) (device : Device)
    (cls : explainer_class) (n : nat) (items : list (string * Model))
  : Dict.t Evaluator :=
  match items with
  | [] => []
  | (name, model) :: items' =>
      (name, make_evaluator tokenizer device cls n model)
      :: make_row tokenizer device cls (n + 2) items'
  end.

(** The matrix after the classes of [explainers], started from [d]. *)
Fixpoint fill_matrix (tokenizer : Tokenizer) (device : Device)
    (models : Dict.t Model) (explainers : list explainer_class) (n : nat)
    (d : Dict.t (Dict.t Evaluator)) : Dict.t (Dict.t Evaluator) :=
  match explainers with
  | [] => d
  | cls :: explainers' =>
      fill_matrix tokenizer device models explainers'
        (n + 2 * Dict.len models)
        (Dict.set d (cls_name cls) (make_row tokenizer device cls n models))
  end.

(** [evaluators_dict[k][v]] *)
Definition lookup2 {V} (d : Dict.t (Dict.t V)) (k v : string) : option V :=
  match Dict.get d k with
  | Some row => Dict.get row v
  | None => None
  end.

(** The number of evaluators in the matrix. *)
Definition matrix_size {V} (d : Dict.t (Dict.t V)) : nat :=
  sum_list (Dict.len <$> Dict.values d).

(** The variant [d] of [path] is a directory with at least one entry. *)
Definition has_checkpoints (fs : filesystem) (path d : string) : bool :=
  match listdir fs (path_join path d) with
  | inr (_ :: _) => true
  | _ => false
  end.

(** [name] is the entry of [dir] that [sorted(..., reverse=True)] puts
    first: no entry is newer, and the entries listed before it are
    strictly older. *)
Definition first_newest (fs : filesystem) (dir : string)
    (entries : list string) (name : string) : Prop :=
  ∃ pre post t,
    entries = pre ++ name :: post ∧
    getmtime fs (path_join dir name) = inr t ∧
    (∀ e, e ∈ pre →
       ∃ t', getmtime fs (path_join dir e) = inr t' ∧ (t' < t)%Z) ∧
    (∀ e, e ∈ post →
       ∃ t', getmtime fs (path_join dir e) = inr t' ∧ (t' ≤ t)%Z).

(** The world after [load_variant] has read the checkpoint [c] and
    stored its model. *)
Definition loaded (model_path c : string) (w : world) : world :=
  with_stdout (w_stdout w ++ ["Loaded " +:+ model_path +:+ "/" +:+ c])
    (with_load_calls (w_load_calls w ++ [c]) w).

(** * Properties *)

(** ** Dictionaries *)

Lemma dict_get_set_eq {V} (d : Dict.t V) k v :
  Dict.get (Dict.set d k v) k = Some v.
Proof.
  induction d as [|[k' v'] d IH]; simpl.
  - by rewrite decide_True.
  - destruct (decide (k' = k)) as [->|Hne]; simpl.
    + by rewrite decide_True.
    + by rewrite decide_False.
Qed.

Lemma dict_get_set_ne {V} (d : Dict.t V) k k' v :
  k ≠ k' → Dict.get (Dict.set d k v) k' = Dict.get d k'.
Proof.
  intros Hne. induction d as [|[k0 v0] d IH]; simpl.
  - by rewrite decide_False.
  - destruct (decide (k0 = k)) as [->|Hne0]; simpl.
    + by rewrite !decide_False.
    + by rewrite IH.
Qed.

Lemma dict_get_Some_keys {V} (d : Dict.t V) k :
  is_Some (Dict.get d k) ↔ k ∈ Dict.keys d.
Proof.
  unfold Dict.keys. induction d as [|[k' v'] d IH]; simpl.
  - split; [by intros [? ?]|by intros ?%elem_of_nil].
  - rewrite elem_of_cons. destruct (decide (k' = k)) as [->|Hne].
    + split; eauto.
    + rewrite IH. split; [by right|].
      intros [?|?]; [congruence|done].
Qed.

Lemma dict_get_None_keys {V} (d : Dict.t V) k :
  Dict.get d k = None ↔ k ∉ Dict.keys d.
Proof. by rewrite <-dict_get_Some_keys, eq_None_not_Some. Qed.

(** Assigning to a present key keeps the order of the keys; a new key is
    appended. *)

Lemma dict_keys_set {V} (d : Dict.t V) k v :
  Dict.keys (Dict.set d k v) =
  if decide (k ∈ Dict.keys d) then Dict.keys d else Dict.keys d ++ [k].
Proof.
  unfold Dict.keys. induction d as [|[k' v'] d IH]; csimpl; [done|].
  destruct (decide (k' = k)) as [->|Hne]; csimpl.
  - rewrite decide_True; [done|]. apply elem_of_cons; by left.
  - rewrite IH. destruct (decide (k ∈ d.*1)) as [Hin|Hnin].
    + rewrite decide_True; [done|]. apply elem_of_cons; by right.
    + rewrite decide_False; [done|].
      intros [?|?]%elem_of_cons; [congruence|done].
Qed.

Lemma dict_wf_empty {V} : Dict.wf (@Dict.empty V).
Proof. constructor. Qed.

Lemma dict_wf_set {V} (d : Dict.t V) k v :
  Dict.wf d → Dict.wf (Dict.set d k v).
Proof.
  unfold Dict.wf. rewrite dict_keys_set. intros Hd.
  destruct (decide (k ∈ Dict.keys d)); [done|].
  apply NoDup_app. split_and!; [done| |apply NoDup_singleton].
  intros x Hx ->%list_elem_of_singleton. done.
Qed.

(** Looking up a key of a well-formed dictionary finds its item. *)
Lemma dict_get_item {V} (d : Dict.t V) k v :
  Dict.wf d → (k, v) ∈ Dict.items d → Dict.get d k = Some v.
Proof.
  unfold Dict.wf, Dict.keys, Dict.items.
  induction d as [|[k' v'] d IH]; simpl.
  - by intros _ ?%elem_of_nil.
  - intros [Hk' Hd]%NoDup_cons [Heq|Hin]%elem_of_cons.
    + injection Heq as -> ->. by rewrite decide_True.
    + rewrite decide_False; [by apply IH|].
      intros ->. apply Hk'. by apply (list_elem_of_fmap_2 fst _ (k, v)).
Qed.

Lemma dict_get_elem_of {V} (d : Dict.t V) k v :
  Dict.get d k = Some v → (k, v) ∈ Dict.items d.
Proof.
  unfold Dict.items. induction d as [|[k' v'] d IH]; simpl; [done|].
  destruct (decide (k' = k)) as [->|Hne].
  - intros [= ->]. apply elem_of_cons; by left.
  - intros ?. apply elem_of_cons; right. by apply IH.
Qed.

(** ** The stable descending sort *)

Lemma insert_desc_perm {A} (x : Z * A) l : insert_desc x l ≡ₚ x :: l.
Proof.
  induction l as [|y l IH]; simpl; [done|].
  destruct (x.1 <? y.1)%Z; [|done].
  by rewrite IH, Permutation_swap.
Qed.

Lemma sort_desc_perm {A} (l : list (Z * A)) : sort_desc l ≡ₚ l.
Proof.
  induction l as [|x l IH]; simpl; [done|].
  by rewrite insert_desc_perm, IH.
Qed.

Lemma sort_desc_nil_inv {A} (l : list (Z * A)) : sort_desc l = [] → l = [].
Proof.
  intros Hs. symmetry. apply Permutation_nil_l. by rewrite <-Hs, sort_desc_perm.
Qed.

(** The head of the sorted list is the first element, in the order of
    the input, whose key is the largest. *)
Lemma sort_desc_head {A} (l : list (Z * A)) x l' :
  sort_desc l = x :: l' →
  ∃ l1 l2, l = l1 ++ x :: l2 ∧
    (∀ y, y ∈ l1 → (y.1 < x.1)%Z) ∧ (∀ y, y ∈ l2 → (y.1 ≤ x.1)%Z).
Proof.
  revert x l'. induction l as [|a l IH]; intros x l'; simpl; [done|].
  destruct (sort_desc l) as [|h t] eqn:Hs; simpl.
  - intros [= <- <-]. apply sort_desc_nil_inv in Hs as ->.
    exists [], []. split_and!; [done|by intros ? ?%elem_of_nil..].
  - destruct (IH h t eq_refl) as (l1 & l2 & -> & Hlt & Hle).
    destruct (a.1 <? h.1)%Z eqn:Hah.
    + intros [= <- <-]. apply Z.ltb_lt in Hah.
      exists (a :: l1), l2. split_and!; [done| |done].
      intros y [->|?]%elem_of_cons; auto.
    + intros [= <- <-]. apply Z.ltb_ge in Hah.
      exists [], (l1 ++ h :: l2). split_and!; [done|by intros ? ?%elem_of_nil|].
      intros y [Hy|[->|Hy]%elem_of_cons]%elem_of_app; [|done|].
      * specialize (Hlt _ Hy). lia.
      * specialize (Hle _ Hy). lia.
Qed.

(** ** Checkpoint discovery *)

(** Unfolds the primitive statements and the monad's operations. *)
Ltac unfold_prims :=
  unfold os_path_isdir, os_path_exists, os_listdir, os_path_getmtime,
    load_pretrained, print, new_explainer, new_evaluator, new_object,
    evaluate_infidelity_mask_top_k, plt_bar, plt_xticks, plt_xlabel,
    plt_ylabel, plt_title, plt_savefig, lift_exn, raise, ret, bind in *.

Lemma same_resources_refl w : same_resources w w.
Proof. by repeat split. Qed.

Lemma same_resources_trans w1 w2 w3 :
  same_resources w1 w2 → same_resources w2 w3 → same_resources w1 w3.
Proof.
  intros (?&?&?&?&?) (?&?&?&?&?). repeat split; congruence.
Qed.

Lemma isdir_listdir fs p :
  isdir fs p = true ↔ ∃ entries, listdir fs p = inr entries.
Proof.
  unfold isdir, listdir. destruct (fs !! p) as [[t [entries| |fig dpi]]|];
    split; try done; try (by intros [? ?]); eauto.
Qed.

Lemma map_each_getmtime paths w :
  (∃ keys, map_each os_path_getmtime paths w = (Return keys, w) ∧
     Forall2 (λ p k, getmtime (w_fs w) p = inr k) paths keys) ∨
  (∃ e p, map_each os_path_getmtime paths w = (Raise e, w) ∧
     p ∈ paths ∧ getmtime (w_fs w) p = inl e).
Proof.
  induction paths as [|p paths IH]; cbn [map_each].
  - left. exists []. split; [done|constructor].
  - unfold_prims.
    destruct (getmtime (w_fs w) p) as [e|t] eqn:Hp; simpl.
    + right. exists e, p. split_and!; [done| |done]. apply elem_of_cons; by left.
    + destruct IH as [(keys & -> & Hkeys)|(e & p' & -> & ? & ?)].
      * left. exists (t :: keys). split; [done|by constructor].
      * right. exists e, p'. split_and!; [done| |done].
        apply elem_of_cons; by right.
Qed.

Lemma Forall2_zip_elem {A B} (R : A → B → Prop) l k x :
  Forall2 R l k → x ∈ zip k l → R x.2 x.1.
Proof.
  induction 1 as [|a b l k Hab _ IH]; simpl.
  - by intros ?%elem_of_nil.
  - intros [->|?]%elem_of_cons; auto.
Qed.

(** The sorted list is empty only for an empty directory, and its head
    is a newest path: the first of them in the order of the listing. *)
Lemma sorted_by_mtime_desc_inv paths w :
  (∃ sorted, sorted_by_mtime_desc paths w = (Return sorted, w) ∧
     (sorted = [] → paths = []) ∧
     ∀ c rest, sorted = c :: rest →
       ∃ pre post t, paths = pre ++ c :: post ∧
         getmtime (w_fs w) c = inr t ∧
         (∀ e, e ∈ pre → ∃ t', getmtime (w_fs w) e = inr t' ∧ (t' < t)%Z) ∧
         (∀ e, e ∈ post → ∃ t', getmtime (w_fs w) e = inr t' ∧ (t' ≤ t)%Z)) ∨
  (∃ e p, sorted_by_mtime_desc paths w = (Raise e, w) ∧
     p ∈ paths ∧ getmtime (w_fs w) p = inl e).
Proof.
  unfold sorted_by_mtime_desc, bind, ret.
  destruct (map_each_getmtime paths w)
    as [(keys & -> & Hkeys)|(e & p & -> & ? & ?)];
    [left|right; by exists e, p].
  eexists; split; [done|]. split.
  - intros Hnil%fmap_nil_inv%sort_desc_nil_inv.
    destruct Hkeys; [done|discriminate].
  - intros c rest Hs.
    destruct (sort_desc (zip keys paths)) as [|[t c'] l'] eqn:Hsort;
      [done|]. injection Hs as -> <-.
    apply sort_desc_head in Hsort as (l1 & l2 & Hzip & Hlt & Hle).
    assert (Hin : ∀ x, x ∈ zip keys paths →
                       getmtime (w_fs w) x.2 = inr x.1)
      by (intros x; apply (Forall2_zip_elem _ _ _ _ Hkeys)).
    exists (l1.*2), (l2.*2), t.
    apply Forall2_length in Hkeys.
    split_and!.
    + rewrite <-(snd_zip keys paths) by lia.
      by rewrite Hzip, fmap_app.
    + apply (Hin (t, c)). rewrite Hzip. set_solver.
    + intros e [[t' e'] [-> Hy]]%list_elem_of_fmap. exists t'. split.
      * apply (Hin (t', e')). rewrite Hzip. set_solver.
      * by apply (Hlt (t', e')).
    + intros e [[t' e'] [-> Hy]]%list_elem_of_fmap. exists t'. split.
      * apply (Hin (t', e')). rewrite Hzip. set_solver.
      * by apply (Hle (t', e')).
Qed.

(** One iteration of the discovery loop either skips the entry, fails on
    reading a modification time, or reads a newest checkpoint of the
    variant and, on success, stores the model. *)
Lemma load_variant_inv path models arch model_dir w r w' :
  load_variant path (models, arch) model_dir w = (r, w') →
  let dir := path_join path model_dir in
  (r = Return (models, arch) ∧ w' = w ∧
   (isdir (w_fs w) dir = false ∨ listdir (w_fs w) dir = inr [])) ∨
  (∃ e entries name, r = Raise e ∧ w' = w ∧
     listdir (w_fs w) dir = inr entries ∧ name ∈ entries ∧
     getmtime (w_fs w) (path_join dir name) = inl e) ∨
  (∃ c, newest (w_fs w) dir c ∧
     w_load_calls w' = w_load_calls w ++ [c] ∧ same_resources w w' ∧
     ((∃ e, from_pretrained (w_fs w) c = inl e ∧ r = Raise e) ∨
      (∃ m, from_pretrained (w_fs w) c = inr m ∧
         r = Return (Dict.set models model_dir m,
                     if truthy arch then arch else Some (class_name m))))).
Proof.
  intros Hrun dir. unfold load_variant in Hrun. fold dir in Hrun.
  unfold bind at 1, os_path_isdir at 1 in Hrun.
  destruct (isdir (w_fs w) dir) eqn:Hdir;
    [|left; unfold ret in Hrun; injection Hrun as <- <-; auto].
  apply isdir_listdir in Hdir as [entries Hentries].
  unfold bind at 1, os_listdir at 1, lift_exn in Hrun.
  rewrite Hentries in Hrun. unfold ret at 1 in Hrun.
  unfold bind at 1 in Hrun.
  destruct (sorted_by_mtime_desc_inv (path_join dir <$> entries) w)
    as [(sorted & Hs & Hnil & Hhead)|(e & p & Hs & Hp & He)];
    rewrite Hs in Hrun.
  2:{ right; left. apply list_elem_of_fmap in Hp as (name & -> & Hname).
      exists e, entries, name. by injection Hrun as <- <-. }
  destruct sorted as [|c rest].
  { left. unfold ret in Hrun. injection Hrun as <- <-.
    split_and!; [done..|]. right.
    by rewrite (fmap_nil_inv _ _ (Hnil eq_refl)) in Hentries. }
  right; right. exists c.
  destruct (Hhead c rest eq_refl) as (pre & post & t & Hsplit & Ht & Hpre & Hpost).
  assert (Hc : c ∈ path_join dir <$> entries) by (rewrite Hsplit; set_solver).
  apply list_elem_of_fmap in Hc as (name & -> & Hname).
  split.
  { exists entries, name, t. split_and!; [done..|].
    intros e He.
    assert (He' : path_join dir e ∈ path_join dir <$> entries)
      by by apply list_elem_of_fmap_2.
    rewrite Hsplit in He'.
    apply elem_of_app in He' as [He'|[->|He']%elem_of_cons].
    - destruct (Hpre _ He') as (t' & ? & ?). exists t'. split; [done|lia].
    - exists t. split; [done|lia].
    - by apply Hpost. }
  unfold bind at 1, load_pretrained at 1, lift_exn in Hrun.
  destruct (from_pretrained (w_fs w) (path_join dir name)) as [e|m] eqn:Hload.
  - unfold raise in Hrun. injection Hrun as <- <-.
    split_and!; [done|by repeat split|]. left. by exists e.
  - unfold_prims. simpl in Hrun.
    destruct (truthy arch); simpl in Hrun; injection Hrun as <- <-;
      (split_and!; [done|by repeat split|]); right; by exists m.
Qed.

Lemma load_variant_skip path st model_dir w :
  isdir (w_fs w) (path_join path model_dir) = false ∨
  listdir (w_fs w) (path_join path model_dir) = inr [] →
  load_variant path st model_dir w = (Return st, w).
Proof.
  destruct st as [models arch]. unfold load_variant.
  unfold bind at 1, os_path_isdir at 1.
  intros [->|Hnil]; [done|].
  assert (Hdir : isdir (w_fs w) (path_join path model_dir) = true)
    by (apply isdir_listdir; eauto).
  rewrite Hdir. unfold bind at 1, os_listdir at 1, lift_exn.
  by rewrite Hnil.
Qed.

Lemma for_each_cons {A B} (x : B) xs (body : A → B → M A) acc w :
  for_each (x :: xs) body acc w =
  match body acc x w with
  | (Return acc', w') => for_each xs body acc' w'
  | (Raise e, w') => (Raise e, w')
  | (Unfinished, w') => (Unfinished, w')
  end.
Proof. done. Qed.

Lemma for_each_app {A B} xs ys (body : A → B → M A) acc w :
  for_each (xs ++ ys) body acc w =
  match for_each xs body acc w with
  | (Return acc', w') => for_each ys body acc' w'
  | (Raise e, w') => (Raise e, w')
  | (Unfinished, w') => (Unfinished, w')
  end.
Proof.
  revert acc w. induction xs as [|x xs IH]; intros acc w.
  - done.
  - rewrite <-app_comm_cons, !for_each_cons.
    destruct (body acc x w) as [[acc'|e|] w']; [apply IH|done..].
Qed.

(** The discovery loop never changes the file system, the figure, the
    random generator or the allocator, and reads newest checkpoints only,
    whatever its outcome. *)
Lemma discovery_loop_calls path dirs st w r w' :
  for_each dirs (load_variant path) st w = (r, w') →
  same_resources w w' ∧ r ≠ Unfinished ∧
  ∃ calls, w_load_calls w' = w_load_calls w ++ calls ∧
    Forall (λ c, ∃ d, d ∈ dirs ∧ newest (w_fs w) (path_join path d) c) calls.
Proof.
  revert st w. induction dirs as [|d dirs IH]; intros [models arch] w.
  { intros [= <- <-]. split_and!; [apply same_resources_refl|done|].
    exists []. by rewrite app_nil_r. }
  rewrite for_each_cons.
  destruct (load_variant path (models, arch) d w) as [r1 w1] eqn:Hstep.
  apply load_variant_inv in Hstep
    as [(-> & -> & _)|[(e & ? & ? & -> & -> & _)
                       |(c & Hc & Hcalls & Hsame & Hr)]].
  - intros (? & ? & calls & ? & Hall)%IH. split_and!; [done..|].
    exists calls. split; [done|].
    eapply Forall_impl; [done|]. intros ? (d' & ? & ?). exists d'. set_solver.
  - intros [= <- <-]. split_and!; [apply same_resources_refl|done|].
    exists []. by rewrite app_nil_r.
  - assert (Hfs : w_fs w1 = w_fs w) by apply Hsame.
    assert (Hnew : ∃ d', d' ∈ d :: dirs ∧
                         newest (w_fs w) (path_join path d') c)
      by (exists d; set_solver).
    destruct Hr as [(e & _ & ->)|(m & _ & ->)].
    + intros [= <- <-]. split_and!; [done..|]. exists [c]. split; [done|].
      by constructor.
    + intros (? & ? & calls & Hcalls' & Hall)%IH.
      split_and!; [by eapply same_resources_trans|done|].
      exists (c :: calls). split.
      * rewrite Hcalls', Hcalls. by rewrite <-app_assoc.
      * constructor; [done|]. rewrite Hfs in Hall.
        eapply Forall_impl; [done|]. intros ? (d' & ? & ?). exists d'.
        set_solver.
Qed.

(** What a successful discovery loop leaves in the dictionary. *)
Lemma discovery_loop_models path dirs models0 arch0 w models arch w' :
  for_each dirs (load_variant path) (models0, arch0) w
    = (Return (models, arch), w') →
  (∀ d m, Dict.get models d = Some m →
     Dict.get models0 d = Some m ∨ loaded_from (w_fs w) path dirs d m) ∧
  (∀ d, is_Some (Dict.get models0 d) → is_Some (Dict.get models d)) ∧
  (∀ d entries, d ∈ dirs →
     listdir (w_fs w) (path_join path d) = inr entries → entries ≠ [] →
     ∃ m, Dict.get models d = Some m ∧ loaded_from (w_fs w) path dirs d m) ∧
  (Dict.wf models0 → Dict.wf models) ∧
  (models0 ≠ [] → models ≠ []).
Proof.
  revert models0 arch0 w. induction dirs as [|d0 dirs IH]; intros models0 arch0 w.
  { intros [= <- <- <-]. split_and!; auto. by intros ? ? ?%elem_of_nil. }
  rewrite for_each_cons.
  destruct (load_variant path (models0, arch0) d0 w) as [r1 w1] eqn:Hstep.
  apply load_variant_inv in Hstep
    as [(-> & -> & Hskip)|[(e & ? & ? & -> & -> & _)
                           |(c & Hc & Hcalls & Hsame & Hr)]];
    [|done|].
  - intros (Hget & Hkeep & Hload & Hwf & Hne)%IH. split_and!; [|done| |done..].
    + intros d m [?|[? ?]]%Hget; [by left|right]. split; [set_solver|done].
    + intros d entries [->|Hd]%elem_of_cons Hentries Hnonempty.
      * destruct Hskip as [Hdir|Hnil]; [|congruence].
        assert (isdir (w_fs w) (path_join path d0) = true)
          by (apply isdir_listdir; eauto). congruence.
      * destruct (Hload d entries Hd Hentries Hnonempty) as (m & ? & ? & ?).
        exists m. split; [done|]. split; [set_solver|done].
  - assert (Hfs : w_fs w1 = w_fs w) by apply Hsame.
    destruct Hr as [(e & _ & ->)|(m0 & Hm0 & ->)]; [done|].
    intros (Hget & Hkeep & Hload & Hwf & Hne)%IH. rewrite Hfs in *.
    assert (Hd0 : loaded_from (w_fs w) path (d0 :: dirs) d0 m0).
    { split; [set_solver|]. by exists c. }
    assert (Hmono : ∀ d m, loaded_from (w_fs w) path dirs d m →
                           loaded_from (w_fs w) path (d0 :: dirs) d m).
    { intros d m [? ?]. split; [set_solver|done]. }
    split_and!.
    + intros d m [Hm|?]%Hget; [|right; auto].
      destruct (decide (d0 = d)) as [<-|Hne'].
      * rewrite dict_get_set_eq in Hm. injection Hm as <-. by right.
      * rewrite dict_get_set_ne in Hm by done. by left.
    + intros d Hd. apply Hkeep.
      destruct (decide (d0 = d)) as [<-|Hne'].
      * by rewrite dict_get_set_eq.
      * by rewrite dict_get_set_ne.
    + intros d entries Hd Hentries Hnonempty.
      destruct (decide (d ∈ dirs)) as [Hin|Hnin].
      { destruct (Hload d entries Hin Hentries Hnonempty) as (m & ? & ?).
        exists m. auto. }
      assert (d = d0) as -> by set_solver.
      destruct (Hkeep d0) as [m Hm]; [by rewrite dict_get_set_eq|].
      exists m. split; [done|].
      destruct (Hget _ _ Hm) as [Hm'|?]; [|auto].
      rewrite dict_get_set_eq in Hm'. by injection Hm' as <-.
    + intros ?. by apply Hwf, dict_wf_set.
    + intros _. apply Hne. by destruct models0 as [|[? ?] ?]; simpl; [|case_decide].
Qed.

(** A resolved label survives every further iteration. *)
Lemma load_variant_keeps_arch path models arch model_dir w models' arch' w' :
  truthy arch = true →
  load_variant path (models, arch) model_dir w
    = (Return (models', arch'), w') →
  arch' = arch.
Proof.
  intros Harch Hstep. apply load_variant_inv in Hstep
    as [([= -> ->] & _)|[(e & ? & ? & [=] & _)|(c & _ & _ & _ & Hr)]];
    [done|].
  destruct Hr as [(e & _ & [=])|(m & _ & [= -> ->])]. by rewrite Harch.
Qed.

Lemma discovery_loop_keeps_arch path dirs models arch w models' arch' w' :
  truthy arch = true →
  for_each dirs (load_variant path) (models, arch) w
    = (Return (models', arch'), w') →
  arch' = arch.
Proof.
  intros Harch. revert models w.
  induction dirs as [|d dirs IH]; intros models w; [by intros [= _ ->]|].
  rewrite for_each_cons.
  destruct (load_variant path (models, arch) d w) as [[[m1 a1]|e|] w1] eqn:Hstep;
    [|done..].
  apply load_variant_keeps_arch in Hstep as ->; [|done]. apply IH.
Qed.

(** Without a successful load the loop leaves its state as it was. *)
Lemma discovery_loop_no_load path dirs models0 arch0 w models arch w' :
  for_each dirs (load_variant path) (models0, arch0) w
    = (Return (models, arch), w') →
  w_load_calls w' = w_load_calls w →
  models = models0 ∧ arch = arch0 ∧ w' = w.
Proof.
  revert models0 arch0 w.
  induction dirs as [|d dirs IH]; intros models0 arch0 w;
    [by intros [= -> -> ->]|].
  rewrite for_each_cons.
  destruct (load_variant path (models0, arch0) d w) as [r1 w1] eqn:Hstep.
  apply load_variant_inv in Hstep
    as [(-> & -> & _)|[(e & ? & ? & -> & _)|(c & _ & Hcalls & _ & Hr)]];
    [apply IH|done|].
  destruct Hr as [(e & _ & ->)|(m & _ & ->)]; [done|].
  intros (_ & _ & calls & Hcalls' & _)%discovery_loop_calls Heq.
  rewrite Hcalls', Hcalls, <-app_assoc in Heq.
  apply (f_equal length) in Heq. rewrite !length_app in Heq. simpl in Heq. lia.
Qed.

Section NamedClasses.

(** A class defined by a [class] statement has an identifier for name. *)
Hypothesis class_name_nonempty : ∀ m, class_name m ≠ "".

(** The label is the class name of the model of the first load. *)
Lemma discovery_loop_arch path dirs models0 arch0 w models arch w' :
  truthy arch0 = false →
  for_each dirs (load_variant path) (models0, arch0) w
    = (Return (models, arch), w') →
  ∃ calls, w_load_calls w' = w_load_calls w ++ calls ∧
    match calls with
    | [] => arch = arch0 ∧ models = models0
    | c :: _ =>
        ∃ m, from_pretrained (w_fs w) c = inr m ∧ arch = Some (class_name m)
    end.
Proof using class_name_nonempty.
  intros Harch0. revert models0 w.
  induction dirs as [|d dirs IH]; intros models0 w.
  { intros [= -> -> ->]. exists []. by rewrite app_nil_r. }
  rewrite for_each_cons.
  destruct (load_variant path (models0, arch0) d w) as [r1 w1] eqn:Hstep.
  apply load_variant_inv in Hstep
    as [(-> & -> & _)|[(e & ? & ? & -> & _)|(c & _ & Hcalls & _ & Hr)]];
    [apply IH|done|].
  destruct Hr as [(e & _ & ->)|(m & Hm & ->)]; [done|].
  rewrite Harch0. intros Hloop.
  destruct (discovery_loop_calls _ _ _ _ _ _ Hloop)
    as (_ & _ & calls & Hcalls' & _).
  exists (c :: calls). split; [by rewrite Hcalls', Hcalls, <-app_assoc|].
  exists m. split; [done|].
  eapply discovery_loop_keeps_arch; [|done]. simpl.
  by rewrite bool_decide_false.
Qed.

End NamedClasses.

Lemma load_latest_checkpoints_dir path dirs w :
  listdir (w_fs w) path = inr dirs →
  load_latest_checkpoints path w
  = for_each dirs (load_variant path) (Dict.empty, None) w.
Proof.
  intros Hdirs. unfold load_latest_checkpoints.
  unfold bind at 1, os_path_isdir at 1.
  assert (isdir (w_fs w) path = true) as -> by (apply isdir_listdir; eauto).
  simpl. unfold bind, os_listdir, lift_exn. by rewrite Hdirs.
Qed.

Lemma load_latest_checkpoints_not_dir path w :
  isdir (w_fs w) path = false →
  load_latest_checkpoints path w
  = (Raise (FileNotFoundError
              ("The directory '" +:+ path +:+
               "' does not exist or is not a directory.")), w).
Proof.
  intros Hdir. unfold load_latest_checkpoints.
  unfold bind at 1, os_path_isdir at 1. by rewrite Hdir.
Qed.

(** Discovery never changes the file system, the figure, the random
    generator or the allocator, and its loop always ends. *)
Lemma load_latest_checkpoints_frame path w r w' :
  load_latest_checkpoints path w = (r, w') →
  same_resources w w' ∧ r ≠ Unfinished.
Proof.
  destruct (isdir (w_fs w) path) eqn:Hdir.
  - apply isdir_listdir in Hdir as [dirs Hdirs].
    rewrite (load_latest_checkpoints_dir _ _ _ Hdirs).
    intros (? & ? & _)%discovery_loop_calls. done.
  - rewrite load_latest_checkpoints_not_dir by done.
    intros [= <- <-]. split; [apply same_resources_refl|done].
Qed.

Lemma load_variant_fs path st model_dir w r w' :
  load_variant path st model_dir w = (r, w') → w_fs w' = w_fs w.
Proof.
  destruct st as [models arch]. intros Hstep.
  apply load_variant_inv in Hstep
    as [(_ & -> & _)|[(? & ? & ? & _ & -> & _)|(? & _ & _ & Hsame & _)]];
    [done..|apply Hsame].
Qed.

(** Discovery returns whenever every entry of a variant has a
    modification time and every newest checkpoint loads. *)
Lemma discovery_loop_returns path dirs st w :
  (∀ d entries e, d ∈ dirs →
     listdir (w_fs w) (path_join path d) = inr entries → e ∈ entries →
     is_Some (w_fs w !! path_join (path_join path d) e)) →
  (∀ d c, d ∈ dirs → newest (w_fs w) (path_join path d) c →
     ∃ m, from_pretrained (w_fs w) c = inr m) →
  ∃ st' w', for_each dirs (load_variant path) st w = (Return st', w').
Proof.
  revert st w. induction dirs as [|d dirs IH]; intros [models arch] w Hstat Hload.
  { by eexists _, _. }
  rewrite for_each_cons.
  destruct (load_variant path (models, arch) d w) as [r1 w1] eqn:Hstep.
  apply load_variant_inv in Hstep
    as [(-> & -> & _)|[(e & entries & name & -> & -> & Hentries & Hname & He)
                       |(c & Hc & _ & Hsame & Hr)]].
  - apply IH; intros; [eapply Hstat|eapply Hload]; set_solver.
  - destruct (Hstat d entries name) as [i Hi]; [set_solver|done..|].
    unfold getmtime in He. by rewrite Hi in He.
  - assert (Hfs : w_fs w1 = w_fs w) by apply Hsame.
    destruct (Hload d c) as [m Hm]; [set_solver|done|].
    destruct Hr as [(e & ? & _)|(m' & _ & ->)]; [congruence|].
    apply IH; rewrite Hfs; intros; [eapply Hstat|eapply Hload]; set_solver.
Qed.

(** The loop steps over a variant without entries. *)
Lemma discovery_loop_filter path dirs model_dir st w :
  listdir (w_fs w) (path_join path model_dir) = inr [] →
  for_each dirs (load_variant path) st w
  = for_each (filter (λ d, d ≠ model_dir) dirs) (load_variant path) st w.
Proof.
  revert st w. induction dirs as [|d dirs IH]; intros st w Hempty; [done|].
  rewrite filter_cons. destruct (decide (d ≠ model_dir)) as [Hne|Heq].
  - rewrite !for_each_cons.
    destruct (load_variant path st d w) as [[st'|e|] w1] eqn:Hstep; [|done..].
    apply IH. apply load_variant_fs in Hstep. by rewrite Hstep.
  - apply dec_stable in Heq as ->. rewrite for_each_cons.
    rewrite load_variant_skip by auto. by apply IH.
Qed.

(** C3. A path that is not an existing directory makes discovery raise
    FileNotFoundError with a message that names the path; the world is
    left as it was, so no checkpoint has been read and no collection is
    returned.  [eval_models] then ends with the same error, having only
    announced the loading. *)
Theorem C3_not_a_directory path w tokenizer explainers test_set device ptg :
  isdir (w_fs w) path = false →
  let msg := "The directory '" +:+ path +:+
             "' does not exist or is not a directory." in
  load_latest_checkpoints path w = (Raise (FileNotFoundError msg), w) ∧
  eval_models path tokenizer explainers test_set device ptg w
  = (Raise (FileNotFoundError msg),
     with_stdout (w_stdout w ++ ["Loading models from " +:+ path]) w).
Proof.
  intros Hdir msg. split; [by apply load_latest_checkpoints_not_dir|].
  unfold eval_models. unfold bind at 1, print at 1. unfold bind at 1.
  by rewrite load_latest_checkpoints_not_dir.
Qed.

(** C1. Every checkpoint that discovery reads is a newest entry of a
    variant subdirectory, whatever the outcome; and when discovery
    returns, every variant subdirectory with at least one entry has its
    model in the collection, loaded from a newest entry: no entry of the
    subdirectory has a later modification time. *)
Theorem C1_latest_checkpoint path w r w' :
  load_latest_checkpoints path w = (r, w') →
  (∃ calls, w_load_calls w' = w_load_calls w ++ calls ∧
     Forall (λ c, ∃ dirs d, listdir (w_fs w) path = inr dirs ∧ d ∈ dirs ∧
                            newest (w_fs w) (path_join path d) c) calls) ∧
  (∀ models arch dirs d entries,
     r = Return (models, arch) →
     listdir (w_fs w) path = inr dirs → d ∈ dirs →
     listdir (w_fs w) (path_join path d) = inr entries → entries ≠ [] →
     ∃ c m, newest (w_fs w) (path_join path d) c ∧
       from_pretrained (w_fs w) c = inr m ∧ Dict.get models d = Some m).
Proof.
  destruct (isdir (w_fs w) path) eqn:Hdir.
  - apply isdir_listdir in Hdir as [dirs Hdirs].
    rewrite (load_latest_checkpoints_dir _ _ _ Hdirs). intros Hloop. split.
    + apply discovery_loop_calls in Hloop as (_ & _ & calls & ? & Hall).
      exists calls. split; [done|]. eapply Forall_impl; [done|].
      intros c (d & ? & ?). by exists dirs, d.
    + intros models arch dirs' d entries -> Hdirs' Hd Hentries Hnonempty.
      assert (dirs' = dirs) as -> by congruence.
      apply discovery_loop_models in Hloop as (_ & _ & Hload & _).
      destruct (Hload d entries Hd Hentries Hnonempty) as (m & ? & _ & c & ? & ?).
      by exists c, m.
  - rewrite load_latest_checkpoints_not_dir by done. intros [= <- <-]. split.
    + exists []. by rewrite app_nil_r.
    + intros models arch dirs d entries [=].
Qed.

(** C7. A variant subdirectory without entries changes nothing: the
    outcome of discovery is that of the loop over the other entries of
    the root, the returned collection has no model under its name, and a
    root whose variants are all empty yields the empty collection. *)
Theorem C7_empty_variant_skipped path w dirs model_dir :
  listdir (w_fs w) path = inr dirs →
  model_dir ∈ dirs →
  listdir (w_fs w) (path_join path model_dir) = inr [] →
  load_latest_checkpoints path w
  = for_each (filter (λ d, d ≠ model_dir) dirs) (load_variant path)
      (Dict.empty, None) w ∧
  (∀ models arch w',
     load_latest_checkpoints path w = (Return (models, arch), w') →
     Dict.get models model_dir = None) ∧
  ((∀ d, d ∈ dirs → isdir (w_fs w) (path_join path d) = true →
         listdir (w_fs w) (path_join path d) = inr []) →
   load_latest_checkpoints path w = (Return (Dict.empty, None), w)).
Proof.
  intros Hdirs Hin Hempty.
  rewrite (load_latest_checkpoints_dir _ _ _ Hdirs). split_and!.
  - by apply discovery_loop_filter.
  - intros models arch w' Hloop. apply eq_None_not_Some. intros [m Hm].
    apply discovery_loop_models in Hloop as (Hget & _).
    destruct (Hget _ _ Hm) as [[=]|(_ & c & Hc & _)].
    destruct Hc as (entries & name & _ & Hentries & Hname & _).
    rewrite Hempty in Hentries. injection Hentries as <-.
    by apply elem_of_nil in Hname.
  - intros Hall. clear Hin Hempty Hdirs.
    generalize (@Dict.empty Model, @None string).
    induction dirs as [|d dirs IH]; intros st; [done|].
    rewrite for_each_cons, load_variant_skip.
    + apply IH. intros; apply Hall; set_solver.
    + destruct (isdir (w_fs w) (path_join path d)) eqn:Hd; [right|by left].
      apply Hall; [set_solver|done].
Qed.

(** A loop that returns the empty collection has loaded nothing. *)
Lemma discovery_loop_empty path dirs arch0 w arch w' :
  for_each dirs (load_variant path) (Dict.empty, arch0) w
    = (Return (Dict.empty, arch), w') →
  arch = arch0 ∧ w' = w.
Proof.
  revert w. induction dirs as [|d dirs IH]; intros w; [by intros [= -> ->]|].
  rewrite for_each_cons.
  destruct (load_variant path (Dict.empty, arch0) d w) as [r1 w1] eqn:Hstep.
  apply load_variant_inv in Hstep
    as [(-> & -> & _)|[(e & ? & ? & -> & _)|(c & _ & _ & _ & Hr)]];
    [apply IH|done|].
  destruct Hr as [(e & _ & ->)|(m & _ & ->)]; [done|].
  intros (_ & _ & _ & _ & Hne)%discovery_loop_models. by destruct Hne.
Qed.

(** C8. When discovery returns, the architecture label is the class name
    of the model of the first checkpoint read, in the order of the
    directory listing, and it is None when no checkpoint was read (the
    collection is then empty); an iteration that starts with a resolved
    label returns the same label.  Class names are taken to be non-empty,
    as those of classes defined by a class statement are. *)
Theorem C8_architecture_label path w models arch w' :
  (∀ m, class_name m ≠ "") →
  load_latest_checkpoints path w = (Return (models, arch), w') →
  (∃ calls, w_load_calls w' = w_load_calls w ++ calls ∧
     match calls with
     | [] => arch = None ∧ models = Dict.empty
     | c :: _ =>
         ∃ m, from_pretrained (w_fs w) c = inr m ∧
              arch = Some (class_name m)
     end) ∧
  (models = Dict.empty → arch = None) ∧
  (∀ models1 arch1 d w1 models2 arch2 w2,
     truthy arch1 = true →
     load_variant path (models1, arch1) d w1
       = (Return (models2, arch2), w2) →
     arch2 = arch1).
Proof.
  intros Hname Hrun.
  destruct (isdir (w_fs w) path) eqn:Hdir;
    [|by rewrite load_latest_checkpoints_not_dir in Hrun].
  apply isdir_listdir in Hdir as [dirs Hdirs].
  rewrite (load_latest_checkpoints_dir _ _ _ Hdirs) in Hrun. split_and!.
  - by apply (discovery_loop_arch Hname) in Hrun.
  - intros ->. by apply discovery_loop_empty in Hrun as [-> _].
  - intros models1 arch1 d w1 models2 arch2 w2.
    apply load_variant_keeps_arch.
Qed.

(** ** Collision-free chart paths *)

Lemma string_length_app s1 s2 :
  String.length (s1 +:+ s2) = String.length s1 + String.length s2.
Proof. induction s1 as [|c s1 IH]; simpl; [done|by rewrite IH]. Qed.

Lemma string_app_inj_r s1 s2 t : s1 +:+ t = s2 +:+ t → s1 = s2.
Proof.
  revert s2. induction s1 as [|c s1 IH]; intros [|c' s2] Heq; simpl in *.
  - done.
  - apply (f_equal String.length) in Heq.
    rewrite !string_length_app in Heq. simpl in Heq. exfalso. lia.
  - apply (f_equal String.length) in Heq.
    rewrite !string_length_app in Heq. simpl in Heq. exfalso. lia.
  - injection Heq as -> Heq. f_equal. by apply IH.
Qed.

Lemma suffixed_inj save_path ext n m :
  suffixed save_path ext n = suffixed save_path ext m → n = m.
Proof.
  unfold suffixed. intros Heq%String.app_inj.
  injection Heq as Heq. change (pretty n +:+ ext = pretty m +:+ ext) in Heq.
  apply string_app_inj_r in Heq. by apply pretty_N_inj in Heq.
Qed.

Lemma suffixed_not_base save_path ext n :
  save_path +:+ ext ≠ suffixed save_path ext n.
Proof.
  unfold suffixed. intros Heq%String.app_inj.
  apply (f_equal String.length) in Heq.
  rewrite ?string_length_app in Heq. simpl in Heq.
  rewrite ?string_length_app in Heq. lia.
Qed.

Global Instance candidate_inj save_path ext :
  Inj (=) (=) (candidate save_path ext).
Proof.
  intros [|i] [|j] Heq; simpl in Heq.
  - done.
  - by apply suffixed_not_base in Heq.
  - symmetry in Heq. by apply suffixed_not_base in Heq.
  - apply suffixed_inj in Heq. lia.
Qed.

Lemma candidate_S save_path ext i :
  candidate save_path ext (S i) = suffixed save_path ext (N.of_nat (S i)).
Proof. done. Qed.

(** The loop, started at the [k]-th candidate, returns the first
    candidate from there on that does not exist, if its fuel reaches it. *)
Lemma probe_first_free fuel (fs : filesystem) save_path ext k i :
  k ≤ i < k + fuel →
  (∀ j, k ≤ j < i → path_exists fs (candidate save_path ext j) = true) →
  path_exists fs (candidate save_path ext i) = false →
  probe fuel fs save_path ext (candidate save_path ext k) (N.of_nat (S k))
  = Some (candidate save_path ext i).
Proof.
  revert k. induction fuel as [|fuel IH]; intros k Hk Hbefore Hfree; [lia|].
  cbn [probe]. destruct (decide (k = i)) as [->|Hne].
  - by rewrite Hfree.
  - rewrite Hbefore by lia.
    replace (N.of_nat (S k) + 1)%N with (N.of_nat (S (S k))) by lia.
    rewrite <-candidate_S. apply IH; [lia| |done].
    intros j ?. apply Hbefore. lia.
Qed.

(** Among the first [n + 1] candidates one does not exist, when the file
    system holds [n] paths. *)
Lemma candidates_exhaust (fs : filesystem) save_path ext n :
  (∀ j, j < n → path_exists fs (candidate save_path ext j) = true) →
  n ≤ size fs.
Proof.
  intros Hall. rewrite <-(size_dom (D:=gset string)).
  trans (size (list_to_set (C:=gset string)
                 (candidate save_path ext <$> seq 0 n))).
  { rewrite size_list_to_set by apply (NoDup_fmap_2 _), NoDup_seq.
    by rewrite length_fmap, length_seq. }
  apply subseteq_size. intros p Hp.
  apply elem_of_list_to_set, list_elem_of_fmap in Hp as (j & -> & Hj).
  apply elem_of_seq in Hj. apply elem_of_dom.
  assert (Hj' : j < n) by lia. specialize (Hall j Hj').
  unfold path_exists in Hall. by apply bool_decide_eq_true in Hall.
Qed.

Lemma first_free_candidate (fs : filesystem) save_path ext :
  ∃ i, i ≤ size fs ∧
    path_exists fs (candidate save_path ext i) = false ∧
    ∀ j, j < i → path_exists fs (candidate save_path ext j) = true.
Proof.
  assert (Hsearch : ∀ n,
    (∃ i, i < n ∧ path_exists fs (candidate save_path ext i) = false ∧
       ∀ j, j < i → path_exists fs (candidate save_path ext j) = true) ∨
    (∀ j, j < n → path_exists fs (candidate save_path ext j) = true)).
  { induction n as [|n [(i & ? & ? & ?)|Hall]].
    - right. lia.
    - left. exists i. split_and!; [lia|done..].
    - destruct (path_exists fs (candidate save_path ext n)) eqn:Hn.
      + right. intros j Hj. destruct (decide (j = n)) as [->|]; [done|].
        apply Hall. lia.
      + left. exists n. split_and!; [lia|done..]. }
  destruct (Hsearch (S (size fs))) as [(i & ? & ? & ?)|Hall].
  - exists i. split_and!; [lia|done..].
  - apply candidates_exhaust in Hall. lia.
Qed.

(** The loop of lines 57-61 always ends, never raises and leaves the
    world as it is; it returns the first candidate that does not exist. *)
Lemma unique_file_path_spec save_path ext w :
  ∃ i, unique_file_path save_path ext w
       = (Return (candidate save_path ext i), w) ∧
    w_fs w !! candidate save_path ext i = None ∧
    ∀ j, j < i → is_Some (w_fs w !! candidate save_path ext j).
Proof.
  destruct (first_free_candidate (w_fs w) save_path ext)
    as (i & Hi & Hfree & Hbefore).
  exists i. split_and!.
  - unfold unique_file_path.
    change (save_path +:+ ext) with (candidate save_path ext 0).
    change 1%N with (N.of_nat 1).
    rewrite (probe_first_free _ _ _ _ 0 i); [done|lia| |done].
    intros j ?. apply Hbefore. lia.
  - unfold path_exists in Hfree. apply bool_decide_eq_false in Hfree.
    by apply eq_None_not_Some.
  - intros j Hj. specialize (Hbefore j Hj).
    by apply bool_decide_eq_true in Hbefore.
Qed.

(** ** Where a chart can be written *)

Lemma has_sep_app s t : has_sep (s +:+ t) = has_sep s || has_sep t.
Proof.
  induction s as [|c s IH]; [done|].
  change (String c s +:+ t) with (String c (s +:+ t)).
  cbn [has_sep]. rewrite IH. by rewrite orb_assoc.
Qed.

Lemma upto_last_sep_no_sep t : has_sep t = false → upto_last_sep t = "".
Proof.
  destruct t as [|c t]; [done|]. intros Ht. cbn [upto_last_sep].
  by rewrite Ht.
Qed.

Lemma upto_last_sep_app p t :
  has_sep t = false → upto_last_sep (p +:+ t) = upto_last_sep p.
Proof.
  intros Ht. induction p as [|c p IH].
  - by apply upto_last_sep_no_sep.
  - change (String c p +:+ t) with (String c (p +:+ t)).
    cbn [upto_last_sep]. rewrite IH.
    change (String c (p +:+ t)) with (String c p +:+ t).
    by rewrite has_sep_app, Ht, orb_false_r.
Qed.

(** Text without a separator, added to a path, leaves its directory part
    as it is. *)
Lemma dirname_app p t : has_sep t = false → dirname (p +:+ t) = dirname p.
Proof. intros Ht. unfold dirname. by rewrite upto_last_sep_app. Qed.

Lemma pretty_N_char_no_sep x : pretty_N_char x ≠ "/"%char.
Proof. unfold pretty_N_char. by repeat case_match. Qed.

Lemma pretty_N_go_no_sep x s :
  has_sep s = false → has_sep (pretty_N_go x s) = false.
Proof.
  revert s. induction (N.lt_wf_0 x) as [x _ IH]; intros s Hs.
  assert (x = 0 ∨ 0 < x)%N as [->|?] by lia.
  - by rewrite pretty_N_go_0.
  - rewrite pretty_N_go_step by done. apply IH; [by apply N.div_lt|].
    cbn [has_sep]. rewrite Hs, orb_false_r.
    apply bool_decide_eq_false, pretty_N_char_no_sep.
Qed.

Lemma pretty_N_no_sep (x : N) : has_sep (pretty x) = false.
Proof.
  unfold pretty, pretty_N. case_decide; [done|].
  by apply pretty_N_go_no_sep.
Qed.

(** All the candidates of one chart lie in the same directory. *)
Lemma candidate_dirname save_path i :
  dirname (candidate save_path ".png" i) = dirname save_path.
Proof.
  destruct i as [|i]; cbn [candidate]; [by apply dirname_app|].
  unfold suffixed. apply dirname_app.
  change ("_" +:+ pretty (N.of_nat (S i)) +:+ ".png")
    with (String "_" (pretty (N.of_nat (S i)) +:+ ".png")).
  cbn [has_sep]. by rewrite has_sep_app, pretty_N_no_sep.
Qed.

Lemma rstrip_sep_nonempty s : only_seps s = false → rstrip_sep s ≠ "".
Proof.
  induction s as [|c s IH]; [done|]. cbn [only_seps rstrip_sep].
  intros Hs. destruct (rstrip_sep s) eqn:Hr; [|done].
  case_bool_decide; [|done]. simpl in Hs. by apply IH in Hs.
Qed.

Lemma dirname_nonempty p : has_sep p = true → dirname p ≠ "".
Proof.
  intros Hp. unfold dirname.
  assert (Hhead : upto_last_sep p ≠ "").
  { destruct p as [|c p]; [done|]. cbn [upto_last_sep]. by rewrite Hp. }
  destruct (only_seps (upto_last_sep p)) eqn:Hseps; [done|].
  by apply rstrip_sep_nonempty.
Qed.

Lemma chart_base_has_sep exp arch : has_sep (chart_base exp arch) = true.
Proof. unfold chart_base. by rewrite has_sep_app. Qed.

(** For an explainer and a label without a separator, the charts go to
    [results/figs]. *)
Lemma chart_dir_plain exp arch :
  has_sep exp = false → has_sep (str_of_arch arch) = false →
  chart_dir exp arch = "results/figs".
Proof.
  intros Hexp Harch. unfold chart_dir, chart_base.
  rewrite dirname_app; [done|].
  by rewrite !has_sep_app, Hexp, Harch.
Qed.

Lemma cls_name_no_sep cls : has_sep (cls_name cls) = false.
Proof. by destruct cls. Qed.

Lemma open_for_writing_new (fs : filesystem) p :
  fs !! p = None → isdir fs (dirname p) = true →
  open_for_writing fs p = inr tt.
Proof.
  intros Hp Hdir. unfold open_for_writing. unfold isdir at 1.
  by rewrite Hp, Hdir, orb_true_r.
Qed.

Lemma open_for_writing_no_dir (fs : filesystem) p :
  fs !! p = None → dirname p ≠ "" → isdir fs (dirname p) = false →
  ∃ e, open_for_writing fs p = inl e.
Proof.
  intros Hp Hne Hdir. unfold open_for_writing. unfold isdir at 1.
  rewrite Hp, Hdir, bool_decide_eq_false_2 by done. cbn [orb].
  destruct (path_exists fs (dirname p)); by eexists.
Qed.

Lemma plt_savefig_run path dpi w :
  plt_savefig path dpi w
  = match open_for_writing (w_fs w) path with
    | inr _ =>
        (Return tt,
         with_fs (<[path := Inode (w_clock w) (Image (w_figure w) dpi)]>
                    (w_fs w)) w)
    | inl e => (Raise e, w)
    end.
Proof.
  unfold plt_savefig, bind.
  by destruct (open_for_writing (w_fs w) path) as [e|[]].
Qed.

(** The export of lines 52-64: the path is the first candidate that does
    not exist; the chart is written there if the file can be opened, and
    otherwise the error of [open] ends the export with nothing changed. *)
Lemma save_chart_spec exp arch w :
  ∃ i, let file_path := candidate (chart_base exp arch) ".png" i in
    save_chart exp arch w
    = match open_for_writing (w_fs w) file_path with
      | inr _ =>
          (Return tt,
           with_stdout (w_stdout w ++ ["Chart saved to " +:+ file_path])
             (with_fs (<[file_path := Inode (w_clock w)
                                        (Image (w_figure w) 300)]>
                         (w_fs w)) w))
      | inl e => (Raise e, w)
      end ∧
    w_fs w !! file_path = None ∧
    ∀ j, j < i → is_Some (w_fs w !! candidate (chart_base exp arch) ".png" j).
Proof.
  destruct (unique_file_path_spec (chart_base exp arch) ".png" w)
    as (i & Hrun & Hfree & Hbefore).
  exists i. split_and!; [|done..].
  unfold save_chart. fold (chart_base exp arch).
  unfold bind at 1. rewrite Hrun. unfold bind at 1.
  rewrite plt_savefig_run.
  by destruct (open_for_writing _ _) as [e|[]].
Qed.

Lemma save_chart_writes exp arch w :
  isdir (w_fs w) (chart_dir exp arch) = true →
  ∃ i, let file_path := candidate (chart_base exp arch) ".png" i in
    save_chart exp arch w
    = (Return tt,
       with_stdout (w_stdout w ++ ["Chart saved to " +:+ file_path])
         (with_fs (<[file_path := Inode (w_clock w) (Image (w_figure w) 300)]>
                     (w_fs w)) w)) ∧
    w_fs w !! file_path = None ∧
    ∀ j, j < i → is_Some (w_fs w !! candidate (chart_base exp arch) ".png" j).
Proof.
  intros Hdir.
  destruct (save_chart_spec exp arch w) as (i & Hrun & Hfree & Hbefore).
  exists i. split_and!; [|done..].
  rewrite Hrun, open_for_writing_new; [done..|].
  by rewrite candidate_dirname.
Qed.

Lemma save_chart_raises exp arch w :
  isdir (w_fs w) (chart_dir exp arch) = false →
  ∃ e, save_chart exp arch w = (Raise e, w).
Proof.
  intros Hdir.
  destruct (save_chart_spec exp arch w) as (i & Hrun & Hfree & _).
  destruct (open_for_writing_no_dir (w_fs w)
              (candidate (chart_base exp arch) ".png" i)) as [e He].
  - done.
  - rewrite candidate_dirname.
    apply dirname_nonempty, chart_base_has_sep.
  - by rewrite candidate_dirname.
  - exists e. by rewrite Hrun, He.
Qed.

(** Whatever its outcome, an export ends, keeps every file that exists
    and leaves the figure, the clock and the generator as they are. *)
Lemma save_chart_frame exp arch w :
  (save_chart exp arch w).1 ≠ Unfinished ∧
  w_rng (save_chart exp arch w).2 = w_rng w ∧
  w_figure (save_chart exp arch w).2 = w_figure w ∧
  w_clock (save_chart exp arch w).2 = w_clock w ∧
  ∀ q, is_Some (w_fs w !! q) →
       w_fs (save_chart exp arch w).2 !! q = w_fs w !! q.
Proof.
  destruct (save_chart_spec exp arch w) as (i & Hrun & Hfree & _).
  rewrite Hrun. destruct (open_for_writing _ _) as [e|[]]; [done|].
  split_and!; [done..|].
  intros q [n Hq]. simpl. rewrite lookup_insert_ne; [done|].
  intros <-. congruence.
Qed.

(** C2. Whatever the file system holds, the probe of lines 57-61 returns
    without raising and without changing anything, and the path it
    returns does not exist: it is the first of [base.png], [base_1.png],
    [base_2.png], ... that is unused.  The export ends, and whatever its
    outcome every file that existed before is still there, unchanged.
    When the directory of the chart exists the chart is written to that
    path; when it does not, [plt.savefig] raises and nothing changes. *)
Theorem C2_export_never_overwrites exp arch w :
  let save_path := "results/figs/" +:+ exp +:+ "_topk_" +:+ str_of_arch arch in
  ∃ i, let file_path := candidate save_path ".png" i in
    unique_file_path save_path ".png" w = (Return file_path, w) ∧
    w_fs w !! file_path = None ∧
    (∀ j, j < i → is_Some (w_fs w !! candidate save_path ".png" j)) ∧
    (save_chart exp arch w).1 ≠ Unfinished ∧
    (∀ q, is_Some (w_fs w !! q) →
          w_fs (save_chart exp arch w).2 !! q = w_fs w !! q) ∧
    (isdir (w_fs w) (dirname save_path) = true →
     ∃ w', save_chart exp arch w = (Return tt, w') ∧
       w_fs w' = <[file_path := Inode (w_clock w) (Image (w_figure w) 300)]>
                   (w_fs w)) ∧
    (isdir (w_fs w) (dirname save_path) = false →
     ∃ e, save_chart exp arch w = (Raise e, w)).
Proof.
  intros save_path.
  destruct (unique_file_path_spec save_path ".png" w)
    as (i & Hrun & Hfree & Hbefore).
  exists i. split_and!; [done..| | | |].
  - apply save_chart_frame.
  - apply save_chart_frame.
  - intros Hdir.
    destruct (save_chart_writes exp arch w Hdir)
      as (i' & Hsave & Hfree' & Hbefore').
    unfold chart_base in Hsave, Hfree', Hbefore'.
    fold save_path in Hsave, Hfree', Hbefore'.
    assert (i' = i) as ->.
    { destruct (Nat.lt_trichotomy i' i) as [Hlt|[->|Hlt]]; [|done|].
      - destruct (Hbefore _ Hlt) as [? ?]. congruence.
      - destruct (Hbefore' _ Hlt) as [? ?]. congruence. }
    eexists. by split.
  - apply save_chart_raises.
Qed.

(** ** The evaluator matrix *)

Lemma dict_set_set {V} (d : Dict.t V) k v1 v2 :
  Dict.set (Dict.set d k v1) k v2 = Dict.set d k v2.
Proof.
  induction d as [|[k' v'] d IH]; simpl.
  - by rewrite decide_True.
  - destruct (decide (k' = k)) as [->|Hne]; simpl.
    + by rewrite decide_True.
    + by rewrite decide_False, IH.
Qed.

Lemma dict_set_get_id {V} (d : Dict.t V) k v :
  Dict.get d k = Some v → Dict.set d k v = d.
Proof.
  induction d as [|[k' v'] d IH]; simpl; [done|].
  destruct (decide (k' = k)) as [->|?].
  - by intros [= ->].
  - intros ?. by rewrite IH.
Qed.

Lemma with_next_id_same w : with_next_id (w_next_id w) w = w.
Proof. by destruct w. Qed.

Lemma with_next_id_twice n m w :
  with_next_id n (with_next_id m w) = with_next_id n w.
Proof. done. Qed.

(** Appending an absent key. *)
Lemma dict_set_fresh {V} (d : Dict.t V) k v :
  k ∉ Dict.keys d → Dict.set d k v = d ++ [(k, v)].
Proof.
  unfold Dict.keys. induction d as [|[k' v'] d IH]; csimpl; [done|].
  intros [Hne Hnin]%not_elem_of_cons.
  rewrite decide_False by done. by rewrite IH.
Qed.

Lemma make_row_keys tokenizer device cls n items :
  Dict.keys (make_row tokenizer device cls n items) = items.*1.
Proof.
  unfold Dict.keys. revert n.
  induction items as [|[name model] items IH]; intros n; csimpl; [done|].
  by rewrite IH.
Qed.


(** The inner loop (lines 32-34) fills the row of the class. *)
Lemma add_evaluators_spec tokenizer device cls items :
  ∀ d row w,
    Dict.get d (cls_name cls) = Some row →
    NoDup (items.*1) → (∀ k, k ∈ items.*1 → k ∉ Dict.keys row) →
    for_each items (add_evaluator tokenizer device cls) d w
    = (Return (Dict.set d (cls_name cls)
                 (row ++ make_row tokenizer device cls (w_next_id w) items)),
       with_next_id (w_next_id w + 2 * length items) w).
Proof.
  induction items as [|[name model] items IH]; intros d row w Hrow Hnodup Hfresh.
  - simpl. unfold ret. rewrite app_nil_r, dict_set_get_id by done.
    by rewrite Nat.add_0_r, with_next_id_same.
  - rewrite for_each_cons. unfold add_evaluator at 1.
    unfold setitem2, new_explainer, new_evaluator, new_object, bind, ret.
    csimpl. rewrite Hrow. csimpl in Hnodup.
    apply NoDup_cons in Hnodup as [Hname Hnodup].
    rewrite (IH _ (Dict.set row name
                     (make_evaluator tokenizer device cls (w_next_id w) model))).
    + simpl. rewrite dict_set_set, with_next_id_twice.
      rewrite (dict_set_fresh row name)
        by (apply Hfresh, elem_of_cons; by left).
      rewrite <-app_assoc. simpl.
      replace (S (S (w_next_id w))) with (w_next_id w + 2) by lia.
      rewrite !with_next_id_twice. f_equal. f_equal. lia.
    + by rewrite dict_get_set_eq.
    + done.
    + intros k Hk. rewrite dict_keys_set.
      rewrite decide_False by (apply Hfresh, elem_of_cons; by left).
      rewrite not_elem_of_app, list_elem_of_singleton. split.
      * apply Hfresh, elem_of_cons. by right.
      * intros ->. done.
Qed.

Lemma add_explainer_spec tokenizer device models d cls w :
  Dict.wf models →
  add_explainer models tokenizer device d cls w
  = (Return (Dict.set d (cls_name cls)
               (make_row tokenizer device cls (w_next_id w) models)),
     with_next_id (w_next_id w + 2 * Dict.len models) w).
Proof.
  intros Hwf. unfold add_explainer.
  rewrite (add_evaluators_spec _ _ _ _ _ []).
  - by rewrite dict_set_set.
  - by rewrite dict_get_set_eq.
  - done.
  - intros k _. apply not_elem_of_nil.
Qed.

Lemma build_evaluators_loop tokenizer device models explainers d w :
  Dict.wf models →
  for_each explainers (add_explainer models tokenizer device) d w
  = (Return (fill_matrix tokenizer device models explainers (w_next_id w) d),
     with_next_id
       (w_next_id w + 2 * (length explainers * Dict.len models)) w).
Proof.
  intros Hwf. revert d w.
  induction explainers as [|cls explainers IH]; intros d w.
  - simpl. unfold ret. by rewrite Nat.add_0_r, with_next_id_same.
  - rewrite for_each_cons, add_explainer_spec by done.
    rewrite IH. simpl. rewrite with_next_id_twice. do 2 f_equal. lia.
Qed.

Global Instance cls_name_inj : Inj (=) (=) cls_name.
Proof. by intros [] [] [=]. Qed.

Lemma make_row_get tokenizer device cls n items v ev :
  Dict.get (make_row tokenizer device cls n items) v = Some ev →
  ∃ j model, items !! j = Some (v, model) ∧
    ev = make_evaluator tokenizer device cls (n + 2 * j) model.
Proof.
  revert n. induction items as [|[name model] items IH]; intros n; simpl;
    [done|].
  destruct (decide (name = v)) as [->|Hne].
  - intros [= <-]. exists 0, model. split; [done|]. f_equal. lia.
  - intros (j & model' & ? & ->)%IH. exists (S j), model'. split; [done|].
    f_equal. lia.
Qed.

Lemma fill_matrix_get tokenizer device models explainers n d k row :
  Dict.get (fill_matrix tokenizer device models explainers n d) k = Some row →
  Dict.get d k = Some row ∨
  ∃ i cls, explainers !! i = Some cls ∧ cls_name cls = k ∧
    row = make_row tokenizer device cls (n + 2 * (i * Dict.len models)) models.
Proof.
  revert n d. induction explainers as [|cls explainers IH]; intros n d; simpl;
    [by left|].
  intros [Hget|(i & cls' & ? & ? & ->)]%IH.
  - destruct (decide (cls_name cls = k)) as [<-|Hne].
    + rewrite dict_get_set_eq in Hget. injection Hget as <-.
      right. exists 0, cls. split_and!; [done..|]. f_equal. lia.
    + rewrite dict_get_set_ne in Hget by done. by left.
  - right. exists (S i), cls'. split_and!; [done..|]. f_equal. lia.
Qed.

Lemma fill_matrix_keys tokenizer device models explainers n d k :
  k ∈ Dict.keys (fill_matrix tokenizer device models explainers n d) ↔
  k ∈ Dict.keys d ∨ ∃ cls, cls ∈ explainers ∧ cls_name cls = k.
Proof.
  revert n d. induction explainers as [|cls explainers IH]; intros n d; simpl.
  - split; [by left|]. intros [?|(? & ?%elem_of_nil & _)]; done.
  - rewrite IH, dict_keys_set. split.
    + intros [Hk|(cls' & ? & ?)].
      * case_decide; [by left|].
        apply elem_of_app in Hk as [?| ->%list_elem_of_singleton]; [by left|].
        right. exists cls. split; [set_solver|done].
      * right. exists cls'. split; [set_solver|done].
    + intros [Hk|(cls' & [-> | ?]%elem_of_cons & <-)].
      * left. case_decide; [done|]. set_solver.
      * left. case_decide; [done|]. set_solver.
      * right. by exists cls'.
Qed.

Lemma fill_matrix_wf tokenizer device models explainers n d :
  Dict.wf d → Dict.wf (fill_matrix tokenizer device models explainers n d).
Proof.
  revert n d. induction explainers as [|cls explainers IH]; intros n d; simpl;
    [done|].
  intros ?. by apply IH, dict_wf_set.
Qed.

(** Distinct classes, none in the matrix yet, get their rows in the
    order of the request. *)
Lemma fill_matrix_keys_nodup tokenizer device models explainers n d :
  NoDup explainers →
  (∀ cls, cls ∈ explainers → cls_name cls ∉ Dict.keys d) →
  Dict.keys (fill_matrix tokenizer device models explainers n d)
  = Dict.keys d ++ (cls_name <$> explainers).
Proof.
  revert n d. induction explainers as [|cls explainers IH]; intros n d; csimpl.
  - by rewrite app_nil_r.
  - intros [Hcls Hnodup]%NoDup_cons Hfresh.
    rewrite IH; [|done|].
    + rewrite dict_keys_set, decide_False by (apply Hfresh; set_solver).
      by rewrite <-app_assoc.
    + intros cls' Hcls'. rewrite dict_keys_set.
      rewrite decide_False by (apply Hfresh; set_solver).
      rewrite not_elem_of_app, list_elem_of_singleton. split.
      * apply Hfresh. set_solver.
      * intros ?%(inj cls_name). congruence.
Qed.

Lemma dict_values_set_Forall {V} (P : V → Prop) (d : Dict.t V) k v :
  Forall P (Dict.values d) → P v → Forall P (Dict.values (Dict.set d k v)).
Proof.
  unfold Dict.values. induction d as [|[k' v'] d IH]; csimpl.
  - intros _ ?. by constructor.
  - intros [? ?]%Forall_cons ?. destruct (decide (k' = k)); csimpl.
    + by constructor.
    + constructor; [done|]. by apply IH.
Qed.

Lemma fill_matrix_rows tokenizer device models explainers n d :
  Forall (λ row, Dict.keys row = Dict.keys models) (Dict.values d) →
  Forall (λ row, Dict.keys row = Dict.keys models)
    (Dict.values (fill_matrix tokenizer device models explainers n d)).
Proof.
  revert n d. induction explainers as [|cls explainers IH]; intros n d; simpl;
    [done|].
  intros ?. apply IH, dict_values_set_Forall; [done|].
  apply make_row_keys.
Qed.

Lemma matrix_size_uniform {V} (d : Dict.t (Dict.t V)) c :
  Forall (λ row, Dict.len row = c) (Dict.values d) →
  matrix_size d = Dict.len d * c.
Proof.
  unfold matrix_size, Dict.values, Dict.len.
  induction d as [|[k row] d IH]; csimpl; [done|].
  intros [-> ?]%Forall_cons. by rewrite IH.
Qed.

Lemma dict_get_values {V} (d : Dict.t V) k v :
  Dict.get d k = Some v → v ∈ Dict.values d.
Proof.
  intros Hget%dict_get_elem_of.
  by apply (list_elem_of_fmap_2 snd _ (k, v)).
Qed.

(** C4. For every list of explainer classes and every model collection,
    [build_evaluators] returns a matrix whose rows are the requested
    classes and whose columns are the variants, with one evaluator per
    (class, variant): it wraps an explainer of that class bound to the
    variant's model, the tokenizer and the device; evaluator and explainer
    are objects created by this call, and no object occurs under two
    different (class, variant) pairs.  The matrix holds (number of
    classes) x (number of variants) evaluators: 6 for 2 distinct classes
    and 3 variants. *)
Theorem C4_evaluator_matrix explainers models tokenizer device w :
  Dict.wf models →
  ∃ matrix,
    let n0 := w_next_id w in
    let n1 := n0 + 2 * (length explainers * Dict.len models) in
    build_evaluators explainers models tokenizer device w
    = (Return matrix, with_next_id n1 w) ∧
    Dict.wf matrix ∧
    (∀ k, k ∈ Dict.keys matrix ↔ ∃ cls, cls ∈ explainers ∧ cls_name cls = k) ∧
    (NoDup explainers → Dict.keys matrix = cls_name <$> explainers) ∧
    (∀ k row, Dict.get matrix k = Some row →
       Dict.keys row = Dict.keys models) ∧
    (∀ cls v, cls ∈ explainers → v ∈ Dict.keys models →
       is_Some (lookup2 matrix (cls_name cls) v)) ∧
    (∀ k v ev, lookup2 matrix k v = Some ev →
       ∃ cls model,
         cls ∈ explainers ∧ cls_name cls = k ∧
         Dict.get models v = Some model ∧
         exp_class (ev_explainer ev) = cls ∧
         exp_model (ev_explainer ev) = model ∧
         exp_tokenizer (ev_explainer ev) = tokenizer ∧
         exp_device (ev_explainer ev) = device ∧
         n0 ≤ exp_id (ev_explainer ev) < n1 ∧ n0 ≤ ev_id ev < n1 ∧
         exp_id (ev_explainer ev) ≠ ev_id ev) ∧
    (∀ k1 v1 ev1 k2 v2 ev2,
       lookup2 matrix k1 v1 = Some ev1 → lookup2 matrix k2 v2 = Some ev2 →
       (k1, v1) ≠ (k2, v2) →
       ev_id ev1 ≠ ev_id ev2 ∧
       exp_id (ev_explainer ev1) ≠ exp_id (ev_explainer ev2) ∧
       ev_id ev1 ≠ exp_id (ev_explainer ev2)) ∧
    matrix_size matrix = Dict.len matrix * Dict.len models ∧
    (NoDup explainers →
     matrix_size matrix = length explainers * Dict.len models) ∧
    (NoDup explainers → length explainers = 2 → Dict.len models = 3 →
     matrix_size matrix = 6).
Proof.
  intros Hwf.
  set (matrix := fill_matrix tokenizer device models explainers
                   (w_next_id w) Dict.empty).
  exists matrix. intros n0 n1. subst n0 n1.
  (* where an evaluator of the matrix comes from *)
  assert (Horigin : ∀ k v ev,
    lookup2 matrix k v = Some ev →
    ∃ i j cls model,
      explainers !! i = Some cls ∧ cls_name cls = k ∧
      models !! j = Some (v, model) ∧
      ev = make_evaluator tokenizer device cls
             (w_next_id w + 2 * (i * Dict.len models) + 2 * j) model).
  { intros k v ev. unfold lookup2.
    destruct (Dict.get matrix k) as [row|] eqn:Hrow; [|done].
    apply fill_matrix_get in Hrow as [[=]|(i & cls & ? & ? & ->)].
    intros (j & model & ? & ->)%make_row_get. by exists i, j, cls, model. }
  assert (Hrows : Forall (λ row, Dict.keys row = Dict.keys models)
                    (Dict.values matrix))
    by (apply fill_matrix_rows; constructor).
  assert (Hsize : matrix_size matrix = Dict.len matrix * Dict.len models).
  { apply matrix_size_uniform. eapply Forall_impl; [exact Hrows|].
    intros row Hrow. unfold Dict.len, Dict.keys in *.
    by rewrite <-(length_fmap fst row), Hrow, length_fmap. }
  assert (Hkeys : NoDup explainers →
                  Dict.keys matrix = cls_name <$> explainers).
  { intros ?. unfold matrix. rewrite fill_matrix_keys_nodup; [done..|].
    intros ? _. apply not_elem_of_nil. }
  assert (Hcount : NoDup explainers →
                   matrix_size matrix = length explainers * Dict.len models).
  { intros Hnodup. rewrite Hsize. f_equal. unfold Dict.len.
    rewrite <-(length_fmap fst). fold (Dict.keys matrix).
    by rewrite Hkeys, length_fmap. }
  split_and!.
  - by apply build_evaluators_loop.
  - apply fill_matrix_wf, dict_wf_empty.
  - intros k. unfold matrix. rewrite fill_matrix_keys. split; [|by right].
    by intros [?%elem_of_nil|?].
  - done.
  - intros k row Hrow%dict_get_values.
    revert row Hrow. by apply Forall_forall.
  - intros cls v Hcls Hv. unfold lookup2.
    destruct (Dict.get matrix (cls_name cls)) as [row|] eqn:Hrow.
    + apply dict_get_Some_keys.
      apply dict_get_values in Hrow.
      by rewrite (proj1 (Forall_forall _ _) Hrows row Hrow).
    + apply dict_get_None_keys in Hrow. destruct Hrow.
      apply fill_matrix_keys. right. by exists cls.
  - intros k v ev (i & j & cls & model & Hi & Hcls & Hj & ->)%Horigin.
    exists cls, model.
    assert (i < length explainers) by by eapply lookup_lt_Some.
    assert (j < Dict.len models) by by eapply lookup_lt_Some.
    assert (i * Dict.len models + j < length explainers * Dict.len models)
      by nia.
    split_and!; simpl; try done; try lia.
    + by eapply list_elem_of_lookup_2.
    + apply dict_get_item; [done|]. by eapply list_elem_of_lookup_2.
  - intros k1 v1 ev1 k2 v2 ev2
      (i1 & j1 & cls1 & model1 & Hi1 & Hcls1 & Hj1 & ->)%Horigin
      (i2 & j2 & cls2 & model2 & Hi2 & Hcls2 & Hj2 & ->)%Horigin Hne.
    assert (j1 < Dict.len models) by by eapply lookup_lt_Some.
    assert (j2 < Dict.len models) by by eapply lookup_lt_Some.
    assert (Hpos : i1 * Dict.len models + j1 ≠ i2 * Dict.len models + j2).
    { intros Heq.
      assert (i1 < i2 → (i1 + 1) * Dict.len models ≤ i2 * Dict.len models)
        by (intros; apply Nat.mul_le_mono_r; lia).
      assert (i2 < i1 → (i2 + 1) * Dict.len models ≤ i1 * Dict.len models)
        by (intros; apply Nat.mul_le_mono_r; lia).
      assert (i1 = i2) as -> by lia. assert (j1 = j2) as -> by lia.
      apply Hne. f_equal; congruence. }
    simpl. lia.
  - done.
  - done.
  - intros Hnodup Hlen2 Hlen3. by rewrite Hcount, Hlen2, Hlen3.
Qed.

(** ** Aggregation *)

Lemma score_model_run exp test_set ptg acc model ev w :
  score_model exp test_set ptg acc (model, ev) w
  = match infidelity_mask_top_k ev test_set 1 ptg (w_rng w) with
    | (inl e, g) => (Raise e, with_rng g w)
    | (inr infid, g) =>
        (Return (Dict.set acc model infid),
         with_stdout
           (w_stdout w ++
            ["Infidelity of " +:+ exp +:+ " explanations of " +:+ model +:+
             " model: " +:+ str_of_score infid])
           (with_rng g w))
    end.
Proof.
  unfold score_model, evaluate_infidelity_mask_top_k, print, bind, lift_exn.
  by destruct (infidelity_mask_top_k ev test_set 1 ptg (w_rng w)) as [[e|s] g].
Qed.

(** Scoring touches the random generator and the standard output only,
    and it ends: it returns the mapping or raises. *)
Lemma score_loop_frame exp test_set ptg items acc w r w' :
  for_each items (score_model exp test_set ptg) acc w = (r, w') →
  w_fs w' = w_fs w ∧ w_clock w' = w_clock w ∧ w_figure w' = w_figure w ∧
  w_next_id w' = w_next_id w ∧ w_load_calls w' = w_load_calls w ∧
  r ≠ Unfinished.
Proof.
  revert acc w. induction items as [|[model ev] items IH]; intros acc w.
  { by intros [= <- <-]. }
  rewrite for_each_cons, score_model_run.
  destruct (infidelity_mask_top_k ev test_set 1 ptg (w_rng w)) as [[e|s] g].
  - by intros [= <- <-].
  - intros Hrest%IH. simpl in Hrest. done.
Qed.

(** The mapping has the keys of the evaluators, in their order. *)
Lemma score_loop_keys exp test_set ptg items acc w infidelities w' :
  for_each items (score_model exp test_set ptg) acc w
    = (Return infidelities, w') →
  NoDup (items.*1) → (∀ k, k ∈ items.*1 → k ∉ Dict.keys acc) →
  Dict.keys infidelities = Dict.keys acc ++ items.*1.
Proof.
  revert acc w. induction items as [|[model ev] items IH]; intros acc w.
  { intros [= <- <-] _ _. by rewrite app_nil_r. }
  rewrite for_each_cons, score_model_run.
  destruct (infidelity_mask_top_k ev test_set 1 ptg (w_rng w)) as [[e|s] g];
    [done|].
  csimpl. intros Hrest [Hmodel Hnodup]%NoDup_cons Hfresh.
  apply IH in Hrest; [|done|].
  - rewrite Hrest, dict_keys_set.
    rewrite decide_False by (apply Hfresh; set_solver).
    by rewrite <-app_assoc.
  - intros k Hk. rewrite dict_keys_set.
    rewrite decide_False by (apply Hfresh; set_solver).
    rewrite not_elem_of_app, list_elem_of_singleton. split.
    + apply Hfresh. set_solver.
    + intros ->. done.
Qed.

(** Scoring depends on the world through the random generator only. *)
Lemma score_loop_deterministic exp test_set ptg items acc w1 w2 :
  w_rng w1 = w_rng w2 →
  (for_each items (score_model exp test_set ptg) acc w1).1
  = (for_each items (score_model exp test_set ptg) acc w2).1 ∧
  w_rng (for_each items (score_model exp test_set ptg) acc w1).2
  = w_rng (for_each items (score_model exp test_set ptg) acc w2).2.
Proof.
  revert acc w1 w2. induction items as [|[model ev] items IH];
    intros acc w1 w2 Hrng; [done|].
  rewrite !for_each_cons, !score_model_run, Hrng.
  destruct (infidelity_mask_top_k ev test_set 1 ptg (w_rng w2)) as [[e|s] g];
    [by split|].
  by apply IH.
Qed.

(** The first evaluator whose metric raises ends the loop with that
    error; the scores collected so far are dropped. *)
Lemma score_loop_raises exp test_set ptg evs_pre name ev evs_post
    acc w partial w1 e g :
  for_each evs_pre (score_model exp test_set ptg) acc w
    = (Return partial, w1) →
  infidelity_mask_top_k ev test_set 1 ptg (w_rng w1) = (inl e, g) →
  for_each (evs_pre ++ (name, ev) :: evs_post)
    (score_model exp test_set ptg) acc w
  = (Raise e, with_rng g w1).
Proof.
  intros Hpre Hraise.
  by rewrite for_each_app, Hpre, for_each_cons, score_model_run, Hraise.
Qed.

(** ** Charts *)

Lemma bar_chart_run exp arch infidelities w :
  bar_chart exp arch infidelities w
  = (Return tt, with_figure (drawn (w_figure w) exp arch infidelities) w).
Proof. done. Qed.

Lemma evaluate_explainer_run arch test_set ptg exp evaluators w :
  evaluate_explainer arch test_set ptg tt (exp, evaluators) w
  = match collect_infidelities exp evaluators test_set ptg (announce exp w)
    with
    | (Return infidelities, w1) =>
        save_chart exp arch
          (with_figure (drawn (w_figure w1) exp arch infidelities) w1)
    | (Raise e, w1) => (Raise e, w1)
    | (Unfinished, w1) => (Unfinished, w1)
    end.
Proof.
  unfold evaluate_explainer. unfold bind at 1, print at 1.
  fold (announce exp w). unfold bind at 1.
  destruct (collect_infidelities exp evaluators test_set ptg (announce exp w))
    as [[infidelities|e|] w1]; [|done..].
  unfold bind at 1. by rewrite bar_chart_run.
Qed.

Lemma eval_models_run path tokenizer explainers test_set device ptg w :
  eval_models path tokenizer explainers test_set device ptg w
  = match load_latest_checkpoints path
            (with_stdout (w_stdout w ++ ["Loading models from " +:+ path]) w)
    with
    | (Return (models, arch), w1) =>
        match build_evaluators explainers models tokenizer device
                (with_stdout
                   (w_stdout w1 ++
                    ["Creating evaluators for explanations of " +:+
                     str_of_arch arch +:+ " models..."]) w1)
        with
        | (Return evaluators_dict, w2) =>
            evaluate_all evaluators_dict arch test_set ptg w2
        | (Raise e, w2) => (Raise e, w2)
        | (Unfinished, w2) => (Unfinished, w2)
        end
    | (Raise e, w1) => (Raise e, w1)
    | (Unfinished, w1) => (Unfinished, w1)
    end.
Proof.
  unfold eval_models. unfold bind at 1, print at 1. unfold bind at 1.
  destruct (load_latest_checkpoints path _) as [[[models arch]|e|] w1];
    [|done..].
  unfold bind at 1, print at 1. unfold bind at 1. done.
Qed.

Lemma for_each_app_return {A B} xs ys (body : A → B → M A) acc w acc' w' :
  for_each xs body acc w = (Return acc', w') →
  for_each (xs ++ ys) body acc w = for_each ys body acc' w'.
Proof. intros Hxs. by rewrite for_each_app, Hxs. Qed.

(** C5. When the metric of an evaluator raises while the scores of one
    explainer are collected, the collection raises that error and yields
    no mapping (the scores of the variants before it are dropped); the
    loop over the explainers ends with the error, leaving the file system
    and the figure as they were when that explainer was reached, so
    neither this explainer nor a later one gets a chart; and [eval_models]
    ends with the same error. *)
Theorem C5_scoring_error_aborts path tokenizer explainers test_set device ptg
    w0 models arch w1 pre exp evs_pre name ev evs_post post w2 w3
    partial w4 e g :
  let evaluators := evs_pre ++ (name, ev) :: evs_post in
  let matrix := pre ++ (exp, evaluators) :: post in
  load_latest_checkpoints path
    (with_stdout (w_stdout w0 ++ ["Loading models from " +:+ path]) w0)
    = (Return (models, arch), w1) →
  build_evaluators explainers models tokenizer device
    (with_stdout
       (w_stdout w1 ++
        ["Creating evaluators for explanations of " +:+ str_of_arch arch +:+
         " models..."]) w1)
    = (Return matrix, w2) →
  for_each pre (evaluate_explainer arch test_set ptg) tt w2
    = (Return tt, w3) →
  for_each evs_pre (score_model exp test_set ptg) Dict.empty (announce exp w3)
    = (Return partial, w4) →
  infidelity_mask_top_k ev test_set 1 ptg (w_rng w4) = (inl e, g) →
  collect_infidelities exp evaluators test_set ptg (announce exp w3)
    = (Raise e, with_rng g w4) ∧
  evaluate_all matrix arch test_set ptg w2 = (Raise e, with_rng g w4) ∧
  eval_models path tokenizer explainers test_set device ptg w0
    = (Raise e, with_rng g w4) ∧
  w_fs (with_rng g w4) = w_fs w3 ∧
  w_figure (with_rng g w4) = w_figure w3.
Proof.
  intros evaluators matrix Hload Hbuild Hpre Hscores Hraise.
  assert (Hcollect :
    collect_infidelities exp evaluators test_set ptg (announce exp w3)
    = (Raise e, with_rng g w4))
    by by eapply score_loop_raises.
  assert (Hall :
    evaluate_all matrix arch test_set ptg w2 = (Raise e, with_rng g w4)).
  { unfold evaluate_all, matrix, Dict.items.
    erewrite for_each_app_return by exact Hpre.
    by rewrite for_each_cons, evaluate_explainer_run, Hcollect. }
  split_and!; [done..| | |].
  - by rewrite eval_models_run, Hload, Hbuild.
  - apply score_loop_frame in Hscores as (Hfs & _). simpl. by rewrite Hfs.
  - apply score_loop_frame in Hscores as (_ & _ & Hfig & _).
    simpl. by rewrite Hfig.
Qed.

(** ** Exports from file systems with the same paths *)

Lemma same_paths_refl (fs : filesystem) : same_paths fs fs.
Proof. by intros p. Qed.

Lemma same_paths_lookup (fs1 fs2 : filesystem) p :
  same_paths fs1 fs2 → is_Some (fs1 !! p) ↔ is_Some (fs2 !! p).
Proof.
  intros Hsame. destruct (Hsame p) as [Hp _]. unfold path_exists in Hp.
  by rewrite <-(bool_decide_eq_true (is_Some (fs1 !! p))), Hp,
    bool_decide_eq_true.
Qed.

Lemma open_for_writing_same_paths (fs1 fs2 : filesystem) p :
  same_paths fs1 fs2 → open_for_writing fs1 p = open_for_writing fs2 p.
Proof.
  intros Hsame. unfold open_for_writing.
  destruct (Hsame p) as [_ ->]. by destruct (Hsame (dirname p)) as [-> ->].
Qed.

Lemma same_paths_insert (fs1 fs2 : filesystem) p t1 t2 fig1 fig2 dpi :
  same_paths fs1 fs2 →
  same_paths (<[p := Inode t1 (Image fig1 dpi)]> fs1)
             (<[p := Inode t2 (Image fig2 dpi)]> fs2).
Proof.
  intros Hsame q. unfold path_exists, isdir.
  destruct (decide (p = q)) as [->|Hne].
  - rewrite !lookup_insert_eq. split; [|done].
    by rewrite !bool_decide_eq_true_2 by by eexists.
  - rewrite !lookup_insert_ne by done. apply Hsame.
Qed.

Lemma first_free_same_paths (fs1 fs2 : filesystem) save_path ext i1 i2 :
  same_paths fs1 fs2 →
  fs1 !! candidate save_path ext i1 = None →
  (∀ j, j < i1 → is_Some (fs1 !! candidate save_path ext j)) →
  fs2 !! candidate save_path ext i2 = None →
  (∀ j, j < i2 → is_Some (fs2 !! candidate save_path ext j)) →
  i1 = i2.
Proof.
  intros Hsame Hfree1 Hbefore1 Hfree2 Hbefore2.
  destruct (Nat.lt_trichotomy i1 i2) as [Hlt|[->|Hlt]]; [|done|].
  - apply Hbefore2, (same_paths_lookup _ _ _ Hsame) in Hlt as [? ?].
    congruence.
  - apply Hbefore1, (same_paths_lookup _ _ _ Hsame) in Hlt as [? ?].
    congruence.
Qed.

(** The outcome of an export depends on the file system only through the
    paths it holds. *)
Lemma save_chart_same_paths exp arch w1 w2 :
  same_paths (w_fs w1) (w_fs w2) →
  (save_chart exp arch w1).1 = (save_chart exp arch w2).1 ∧
  same_paths (w_fs (save_chart exp arch w1).2)
             (w_fs (save_chart exp arch w2).2).
Proof.
  intros Hsame.
  destruct (save_chart_spec exp arch w1) as (i1 & Hrun1 & Hfree1 & Hbefore1).
  destruct (save_chart_spec exp arch w2) as (i2 & Hrun2 & Hfree2 & Hbefore2).
  assert (i1 = i2) as -> by by eapply first_free_same_paths.
  rewrite Hrun1, Hrun2.
  rewrite (open_for_writing_same_paths _ _ _ Hsame).
  destruct (open_for_writing (w_fs w2) _) as [e|[]]; [done|].
  split; [done|]. by apply same_paths_insert.
Qed.

Lemma evaluate_explainer_deterministic arch test_set ptg item w1 w2 :
  w_rng w1 = w_rng w2 → same_paths (w_fs w1) (w_fs w2) →
  (evaluate_explainer arch test_set ptg tt item w1).1
  = (evaluate_explainer arch test_set ptg tt item w2).1 ∧
  w_rng (evaluate_explainer arch test_set ptg tt item w1).2
  = w_rng (evaluate_explainer arch test_set ptg tt item w2).2 ∧
  same_paths (w_fs (evaluate_explainer arch test_set ptg tt item w1).2)
             (w_fs (evaluate_explainer arch test_set ptg tt item w2).2).
Proof.
  intros Hrng Hsame. destruct item as [exp evaluators].
  rewrite !evaluate_explainer_run. unfold collect_infidelities.
  destruct (score_loop_deterministic exp test_set ptg (Dict.items evaluators)
              Dict.empty (announce exp w1) (announce exp w2) Hrng)
    as [Hr Hg].
  destruct (for_each _ _ _ (announce exp w1)) as [r1 u1] eqn:Hu1.
  destruct (for_each _ _ _ (announce exp w2)) as [r2 u2] eqn:Hu2.
  apply score_loop_frame in Hu1 as (Hfs1 & _).
  apply score_loop_frame in Hu2 as (Hfs2 & _).
  simpl in Hr, Hg, Hfs1, Hfs2. subst r2.
  assert (Hsame' : same_paths (w_fs u1) (w_fs u2)) by by rewrite Hfs1, Hfs2.
  destruct r1 as [infidelities|e|]; [|done..].
  set (v1 := with_figure (drawn (w_figure u1) exp arch infidelities) u1).
  set (v2 := with_figure (drawn (w_figure u2) exp arch infidelities) u2).
  destruct (save_chart_same_paths exp arch v1 v2 Hsame') as [Hr Hpaths].
  destruct (save_chart_frame exp arch v1) as (_ & Hg1 & _).
  destruct (save_chart_frame exp arch v2) as (_ & Hg2 & _).
  split_and!; [done| |done]. by rewrite Hg1, Hg2.
Qed.

Lemma evaluate_loop_deterministic arch test_set ptg items w1 w2 :
  w_rng w1 = w_rng w2 → same_paths (w_fs w1) (w_fs w2) →
  (for_each items (evaluate_explainer arch test_set ptg) tt w1).1
  = (for_each items (evaluate_explainer arch test_set ptg) tt w2).1 ∧
  w_rng (for_each items (evaluate_explainer arch test_set ptg) tt w1).2
  = w_rng (for_each items (evaluate_explainer arch test_set ptg) tt w2).2.
Proof.
  revert w1 w2. induction items as [|item items IH]; intros w1 w2 Hrng Hsame;
    [done|].
  rewrite !for_each_cons.
  destruct (evaluate_explainer_deterministic arch test_set ptg item w1 w2
              Hrng Hsame) as (Hr & Hg & Hpaths).
  destruct (evaluate_explainer _ _ _ _ item w1) as [r1 u1].
  destruct (evaluate_explainer _ _ _ _ item w2) as [r2 u2].
  simpl in Hr, Hg, Hpaths. subst r2.
  destruct r1 as [[]|e|]; [by apply IH|done..].
Qed.

(** Two loops over the same explainers that both return have used the
    random generator in the same way, whatever the files are. *)
Lemma evaluate_loop_rng arch test_set ptg items w1 w2 u1 u2 :
  w_rng w1 = w_rng w2 →
  for_each items (evaluate_explainer arch test_set ptg) tt w1
    = (Return tt, u1) →
  for_each items (evaluate_explainer arch test_set ptg) tt w2
    = (Return tt, u2) →
  w_rng u1 = w_rng u2.
Proof.
  revert w1 w2. induction items as [|[exp evaluators] items IH];
    intros w1 w2 Hrng Hrun1 Hrun2.
  { simpl in Hrun1, Hrun2. unfold ret in *. congruence. }
  rewrite for_each_cons in Hrun1, Hrun2.
  rewrite evaluate_explainer_run in Hrun1, Hrun2.
  unfold collect_infidelities in Hrun1, Hrun2.
  destruct (score_loop_deterministic exp test_set ptg (Dict.items evaluators)
              Dict.empty (announce exp w1) (announce exp w2) Hrng)
    as [Hr Hg].
  destruct (for_each _ _ _ (announce exp w1)) as [r1 v1].
  destruct (for_each _ _ _ (announce exp w2)) as [r2 v2].
  simpl in Hr, Hg. subst r2.
  destruct r1 as [infidelities|e|]; [|done..].
  destruct (save_chart_frame exp arch
              (with_figure (drawn (w_figure v1) exp arch infidelities) v1))
    as (_ & Hg1 & _).
  destruct (save_chart_frame exp arch
              (with_figure (drawn (w_figure v2) exp arch infidelities) v2))
    as (_ & Hg2 & _).
  destruct (save_chart exp arch (with_figure _ v1)) as [[[]|e|] x1];
    [|done..].
  destruct (save_chart exp arch (with_figure _ v2)) as [[[]|e|] x2];
    [|done..].
  simpl in Hg1, Hg2. apply (IH x1 x2); [|done..].
  by rewrite Hg1, Hg2.
Qed.

(** C9. Two runs of the aggregation on the same evaluator matrix, test
    set and sampling fraction (and [k = 1]) that start with the random
    generator in the same state yield the same mapping from variant to
    score for every explainer, whatever else differs between the two
    worlds (files, figure, output, objects allocated).  The metric is a
    function of the evaluator, the test set, [k], the fraction and the
    state of the generator.  In a run over the whole matrix an explainer is
    reached only if the charts before it could be written: when both runs
    reach it the mappings agree, and the two runs end in the same way when
    their file systems hold the same paths. *)
Theorem C9_aggregation_deterministic matrix arch test_set ptg w1 w2 :
  w_rng w1 = w_rng w2 →
  (∀ exp evaluators,
     (collect_infidelities exp evaluators test_set ptg w1).1
     = (collect_infidelities exp evaluators test_set ptg w2).1) ∧
  (∀ pre exp evaluators post,
     Dict.items matrix = pre ++ (exp, evaluators) :: post →
     let r1 := for_each pre (evaluate_explainer arch test_set ptg) tt w1 in
     let r2 := for_each pre (evaluate_explainer arch test_set ptg) tt w2 in
     r1.1 = Return tt → r2.1 = Return tt →
     (collect_infidelities exp evaluators test_set ptg (announce exp r1.2)).1
     = (collect_infidelities exp evaluators test_set ptg
          (announce exp r2.2)).1) ∧
  (same_paths (w_fs w1) (w_fs w2) →
   (evaluate_all matrix arch test_set ptg w1).1
   = (evaluate_all matrix arch test_set ptg w2).1 ∧
   ∀ pre exp evaluators post,
     Dict.items matrix = pre ++ (exp, evaluators) :: post →
     let r1 := for_each pre (evaluate_explainer arch test_set ptg) tt w1 in
     let r2 := for_each pre (evaluate_explainer arch test_set ptg) tt w2 in
     r1.1 = r2.1 ∧
     (collect_infidelities exp evaluators test_set ptg (announce exp r1.2)).1
     = (collect_infidelities exp evaluators test_set ptg
          (announce exp r2.2)).1).
Proof.
  intros Hrng. split_and!.
  - intros exp evaluators. by apply score_loop_deterministic.
  - intros pre exp evaluators post _ r1 r2 Hr1 Hr2.
    apply score_loop_deterministic. simpl.
    destruct r1 as [x1 u1] eqn:Hrun1. destruct r2 as [x2 u2] eqn:Hrun2.
    simpl in Hr1, Hr2. subst x1 x2.
    by eapply evaluate_loop_rng.
  - intros Hsame. split; [by apply evaluate_loop_deterministic|].
    intros pre exp evaluators post _ r1 r2.
    destruct (evaluate_loop_deterministic arch test_set ptg pre w1 w2 Hrng
                Hsame) as [Hr Hg].
    split; [done|]. by apply score_loop_deterministic.
Qed.

(** ** Runs without models *)

(** A chart written to a new path leaves the directories as they are. *)
Lemma isdir_insert_new (fs : filesystem) p t fig dpi d :
  fs !! p = None → isdir fs d = true →
  isdir (<[p := Inode t (Image fig dpi)]> fs) d = true.
Proof.
  intros Hp Hd. unfold isdir in *.
  destruct (decide (p = d)) as [->|Hne]; [by rewrite Hp in Hd|].
  by rewrite lookup_insert_ne.
Qed.



(** ** What a chart holds *)

(** The chart written for an explainer is the current figure with the
    explainer's bars added, ticks, labels and title replaced: it holds
    whatever bars the figure held before.  The figure stays current. *)
Lemma evaluate_explainer_chart arch test_set ptg exp evaluators w
    infidelities w1 :
  collect_infidelities exp evaluators test_set ptg (announce exp w)
    = (Return infidelities, w1) →
  isdir (w_fs w) (chart_dir exp arch) = true →
  ∃ i w',
    let file_path := candidate (chart_base exp arch) ".png" i in
    let fig := drawn (w_figure w) exp arch infidelities in
    evaluate_explainer arch test_set ptg tt (exp, evaluators) w
      = (Return tt, w') ∧
    w_fs w !! file_path = None ∧
    w_fs w' !! file_path = Some (Inode (w_clock w) (Image fig 300)) ∧
    w_figure w' = fig.
Proof.
  intros Hcollect Hdir. rewrite evaluate_explainer_run, Hcollect.
  apply score_loop_frame in Hcollect as (Hfs & Hclock & Hfig & _).
  simpl in Hfs, Hclock, Hfig.
  destruct (save_chart_writes exp arch
              (with_figure (drawn (w_figure w1) exp arch infidelities) w1))
    as (i & Hrun & Hfree & _); [simpl; by rewrite Hfs|].
  exists i. eexists. split_and!; [done|..]; simpl in *.
  - by rewrite <-Hfs.
  - by rewrite lookup_insert_eq, Hclock, Hfig.
  - by rewrite Hfig.
Qed.



(** Discovery returns a collection whenever the root is a directory,
    every entry of a variant has a modification time and every newest
    checkpoint loads. *)
Lemma load_latest_checkpoints_returns path dirs w :
  listdir (w_fs w) path = inr dirs →
  (∀ d entries e, d ∈ dirs →
     listdir (w_fs w) (path_join path d) = inr entries → e ∈ entries →
     is_Some (w_fs w !! path_join (path_join path d) e)) →
  (∀ d c, d ∈ dirs → newest (w_fs w) (path_join path d) c →
     ∃ m, from_pretrained (w_fs w) c = inr m) →
  ∃ models arch w',
    load_latest_checkpoints path w = (Return (models, arch), w').
Proof.
  intros Hdirs Hstat Hload. rewrite (load_latest_checkpoints_dir _ _ _ Hdirs).
  destruct (discovery_loop_returns path dirs (Dict.empty, None) w Hstat Hload)
    as ([models arch] & w' & ->).
  by exists models, arch, w'.
Qed.

(** * Further properties of discovery *)

(** The entry that the sort puts first is determined by the listing and
    the modification times. *)
Lemma first_newest_unique fs dir entries name name' :
  first_newest fs dir entries name → first_newest fs dir entries name' →
  name = name'.
Proof.
  intros (pre & post & t & Hsplit & Ht & Hpre & Hpost)
         (pre' & post' & t' & Hsplit' & Ht' & Hpre' & Hpost').
  assert (Hname : entries !! length pre = Some name)
    by (rewrite Hsplit; apply list_lookup_middle; done).
  assert (Hname' : entries !! length pre' = Some name')
    by (rewrite Hsplit'; apply list_lookup_middle; done).
  destruct (Nat.lt_trichotomy (length pre) (length pre')) as [Hlt|[Heq|Hlt]].
  - exfalso.
    assert (name ∈ pre').
    { rewrite Hsplit', lookup_app_l in Hname by done.
      by eapply list_elem_of_lookup_2. }
    assert (name' ∈ post).
    { rewrite Hsplit, lookup_app_r in Hname' by lia.
      destruct (length pre' - length pre) as [|n] eqn:Hn; [lia|].
      simpl in Hname'. by eapply list_elem_of_lookup_2. }
    destruct (Hpre' name) as (t1 & Ht1 & ?); [done|].
    destruct (Hpost name') as (t2 & Ht2 & ?); [done|].
    rewrite Ht in Ht1. rewrite Ht' in Ht2. simplify_eq. lia.
  - rewrite Heq in Hname. congruence.
  - exfalso.
    assert (name' ∈ pre).
    { rewrite Hsplit, lookup_app_l in Hname' by done.
      by eapply list_elem_of_lookup_2. }
    assert (name ∈ post').
    { rewrite Hsplit', lookup_app_r in Hname by lia.
      destruct (length pre - length pre') as [|n] eqn:Hn; [lia|].
      simpl in Hname. by eapply list_elem_of_lookup_2. }
    destruct (Hpre name') as (t1 & Ht1 & ?); [done|].
    destruct (Hpost' name) as (t2 & Ht2 & ?); [done|].
    rewrite Ht' in Ht1. rewrite Ht in Ht2. simplify_eq. lia.
Qed.

Lemma first_newest_newest fs dir entries name :
  listdir fs dir = inr entries → first_newest fs dir entries name →
  newest fs dir (path_join dir name).
Proof.
  intros Hentries (pre & post & t & -> & Ht & Hpre & Hpost).
  exists (pre ++ name :: post), name, t. split_and!; [done| |done..|].
  - apply elem_of_app. right. apply elem_of_cons. by left.
  - intros e [He|[->|He]%elem_of_cons]%elem_of_app.
    + destruct (Hpre e He) as (t' & ? & ?). exists t'. split; [done|lia].
    + exists t. split; [done|lia].
    + by apply Hpost.
Qed.

(** What one iteration does on a variant directory whose entries all
    have a modification time: it reads the first of the newest entries
    and nothing else. *)
Lemma load_variant_run path models arch model_dir w entries name :
  let dir := path_join path model_dir in
  listdir (w_fs w) dir = inr entries →
  first_newest (w_fs w) dir entries name →
  load_variant path (models, arch) model_dir w
  = match from_pretrained (w_fs w) (path_join dir name) with
    | inl e =>
        (Raise e,
         with_load_calls (w_load_calls w ++ [path_join dir name]) w)
    | inr m =>
        (Return (Dict.set models model_dir m,
                 if truthy arch then arch else Some (class_name m)),
         loaded dir (path_join dir name) w)
    end.
Proof.
  intros dir Hentries Hfirst.
  assert (Hstat : ∀ e, e ∈ entries →
                       ∃ t, getmtime (w_fs w) (path_join dir e) = inr t).
  { destruct Hfirst as (pre & post & t & -> & Ht & Hpre & Hpost).
    intros e [He|[->|He]%elem_of_cons]%elem_of_app.
    - destruct (Hpre e He) as (t' & ? & _). by exists t'.
    - by exists t.
    - destruct (Hpost e He) as (t' & ? & _). by exists t'. }
  unfold load_variant. fold dir.
  unfold bind at 1, os_path_isdir at 1.
  assert (isdir (w_fs w) dir = true) as -> by (apply isdir_listdir; eauto).
  unfold bind at 1, os_listdir at 1, lift_exn. rewrite Hentries.
  unfold ret at 1. unfold bind at 1.
  destruct (sorted_by_mtime_desc_inv (path_join dir <$> entries) w)
    as [(sorted & -> & Hnil & Hhead)|(e & p & _ & Hp & He)].
  2:{ apply list_elem_of_fmap in Hp as (e' & -> & He').
      destruct (Hstat e' He') as (t & Ht). congruence. }
  destruct sorted as [|c rest].
  { apply fmap_nil_inv in Hnil; [|done].
    destruct Hfirst as (pre & post & ? & Hsplit & _).
    rewrite Hnil in Hsplit. by destruct pre. }
  destruct (Hhead c rest eq_refl)
    as (ppre & ppost & t & Hsplit & Ht & Hpre & Hpost).
  apply fmap_app_inv in Hsplit as (pre & l2 & -> & Hl2 & ->).
  symmetry in Hl2.
  apply fmap_cons_inv in Hl2 as (name' & post & -> & -> & ->).
  assert (name' = name) as ->.
  { apply (first_newest_unique (w_fs w) dir (pre ++ name' :: post));
      [|done].
    exists pre, post, t. split_and!; [done..| |].
    - intros e He. apply Hpre. by apply list_elem_of_fmap_2.
    - intros e He. apply Hpost. by apply list_elem_of_fmap_2. }
  unfold bind at 1, load_pretrained at 1, lift_exn.
  destruct (from_pretrained (w_fs w) (path_join dir name)) as [e|m]; [done|].
  unfold ret at 1. unfold bind at 1, print at 1. fold (loaded dir (path_join dir name) w).
  by destruct (truthy arch).
Qed.

(** The first entry without a modification time ends the reading of the
    modification times with its error. *)
Lemma map_each_getmtime_fails pre p post e w :
  (∀ q, q ∈ pre → ∃ t, getmtime (w_fs w) q = inr t) →
  getmtime (w_fs w) p = inl e →
  map_each os_path_getmtime (pre ++ p :: post) w = (Raise e, w).
Proof.
  intros Hpre Hp. induction pre as [|q pre IH]; cbn [map_each app].
  - unfold bind, os_path_getmtime, lift_exn. by rewrite Hp.
  - destruct (Hpre q) as [t Ht]; [apply elem_of_cons; by left|].
    unfold bind at 1, os_path_getmtime at 1, lift_exn. rewrite Ht.
    unfold ret at 1. unfold bind at 1. rewrite IH; [done|].
    intros q' ?. apply Hpre, elem_of_cons. by right.
Qed.

(** Either every entry has a modification time, or there is a first one
    that has none. *)
Lemma stat_all_or_first_missing (fs : filesystem) dir entries :
  (∀ e, e ∈ entries → ∃ t, getmtime fs (path_join dir e) = inr t) ∨
  ∃ pre name post,
    entries = pre ++ name :: post ∧
    (∀ e, e ∈ pre → ∃ t, getmtime fs (path_join dir e) = inr t) ∧
    fs !! path_join dir name = None.
Proof.
  induction entries as [|e entries IH].
  - left. by intros ? ?%elem_of_nil.
  - destruct (fs !! path_join dir e) as [i|] eqn:He.
    + destruct IH as [Hall|(pre & name & post & -> & Hpre & Hname)].
      * left. intros e' [->|?]%elem_of_cons; [|by apply Hall].
        exists (st_mtime i). unfold getmtime. by rewrite He.
      * right. exists (e :: pre), name, post. split_and!; [done| |done].
        intros e' [->|?]%elem_of_cons; [|by apply Hpre].
        exists (st_mtime i). unfold getmtime. by rewrite He.
    + right. exists [], e, entries. split_and!; [done| |done].
      by intros ? ?%elem_of_nil.
Qed.

(** A non-empty directory whose entries all have a modification time has
    a first newest entry. *)
Lemma first_newest_exists w dir entries :
  entries ≠ [] →
  (∀ e, e ∈ entries → ∃ t, getmtime (w_fs w) (path_join dir e) = inr t) →
  ∃ name, first_newest (w_fs w) dir entries name.
Proof.
  intros Hnonempty Hstat.
  destruct (sorted_by_mtime_desc_inv (path_join dir <$> entries) w)
    as [(sorted & _ & Hnil & Hhead)|(e & p & _ & Hp & He)].
  2:{ apply list_elem_of_fmap in Hp as (e' & -> & He').
      destruct (Hstat e' He') as (t & Ht). congruence. }
  destruct sorted as [|c rest].
  { by apply fmap_nil_inv in Hnil. }
  destruct (Hhead c rest eq_refl)
    as (ppre & ppost & t & Hsplit & Ht & Hpre & Hpost).
  apply fmap_app_inv in Hsplit as (pre & l2 & -> & Hl2 & ->).
  symmetry in Hl2.
  apply fmap_cons_inv in Hl2 as (name & post & -> & -> & ->).
  exists name, pre, post, t. split_and!; [done..| |].
  - intros e He. apply Hpre. by apply list_elem_of_fmap_2.
  - intros e He. apply Hpost. by apply list_elem_of_fmap_2.
Qed.

(** An entry without a modification time makes the iteration raise
    before any checkpoint of the variant is read, whatever the other
    entries are. *)
Lemma load_variant_stat_error path st model_dir w pre name post :
  let dir := path_join path model_dir in
  listdir (w_fs w) dir = inr (pre ++ name :: post) →
  (∀ e, e ∈ pre → ∃ t, getmtime (w_fs w) (path_join dir e) = inr t) →
  w_fs w !! path_join dir name = None →
  load_variant path st model_dir w
  = (Raise (FileNotFoundError (path_join dir name)), w).
Proof.
  intros dir Hentries Hpre Hname. destruct st as [models arch].
  unfold load_variant. fold dir.
  unfold bind at 1, os_path_isdir at 1.
  assert (isdir (w_fs w) dir = true) as -> by (apply isdir_listdir; eauto).
  unfold bind at 1, os_listdir at 1, lift_exn. rewrite Hentries.
  unfold ret at 1. unfold bind at 1, sorted_by_mtime_desc at 1.
  unfold bind at 1. rewrite fmap_app, fmap_cons.
  rewrite (map_each_getmtime_fails _ _ _
             (FileNotFoundError (path_join dir name))); [done| |].
  - intros q (e & -> & He)%list_elem_of_fmap. by apply Hpre.
  - unfold getmtime. by rewrite Hname.
Qed.

(** The three ways an iteration of the discovery loop can go. *)
Lemma load_variant_cases path model_dir w :
  let dir := path_join path model_dir in
  (isdir (w_fs w) dir = false ∨ listdir (w_fs w) dir = inr []) ∨
  (∃ pre name post,
     listdir (w_fs w) dir = inr (pre ++ name :: post) ∧
     (∀ e, e ∈ pre → ∃ t, getmtime (w_fs w) (path_join dir e) = inr t) ∧
     w_fs w !! path_join dir name = None) ∨
  (∃ entries name,
     listdir (w_fs w) dir = inr entries ∧
     first_newest (w_fs w) dir entries name).
Proof.
  intros dir. destruct (isdir (w_fs w) dir) eqn:Hdir; [|by left; left].
  apply isdir_listdir in Hdir as [entries Hentries].
  destruct entries as [|e0 entries0] eqn:Hlist; [by left; right|].
  rewrite <-Hlist in *.
  destruct (stat_all_or_first_missing (w_fs w) dir entries)
    as [Hall|(pre & name & post & Hsplit & Hpre & Hname)].
  - right; right. destruct (first_newest_exists w dir entries) as [name ?];
      [by rewrite Hlist|done|]. by exists entries, name.
  - right; left. exists pre, name, post. by rewrite <-Hsplit.
Qed.

Lemma has_checkpoints_cons (fs : filesystem) path d e entries :
  listdir fs (path_join path d) = inr (e :: entries) →
  has_checkpoints fs path d = true.
Proof. unfold has_checkpoints. by intros ->. Qed.

Lemma has_checkpoints_skip (fs : filesystem) path d :
  isdir fs (path_join path d) = false ∨
  listdir fs (path_join path d) = inr [] →
  has_checkpoints fs path d = false.
Proof.
  unfold has_checkpoints. intros [Hdir| ->]; [|done].
  destruct (listdir fs (path_join path d)) as [|[|? ?]] eqn:Hl; try done.
  assert (isdir fs (path_join path d) = true)
    by (apply isdir_listdir; eauto). congruence.
Qed.

Lemma first_newest_nonempty fs dir entries name :
  first_newest fs dir entries name → ∃ e entries', entries = e :: entries'.
Proof.
  intros (pre & post & _ & -> & _). destruct pre; simpl; eauto.
Qed.

(** The models enter the collection in the order of the listing. *)
Lemma discovery_loop_keys path dirs models0 arch0 w models arch w' :
  for_each dirs (load_variant path) (models0, arch0) w
    = (Return (models, arch), w') →
  NoDup dirs → (∀ d, d ∈ dirs → d ∉ Dict.keys models0) →
  Dict.keys models
  = Dict.keys models0 ++
    filter (λ d, has_checkpoints (w_fs w) path d = true) dirs.
Proof.
  revert models0 arch0 w. induction dirs as [|d dirs IH];
    intros models0 arch0 w.
  { intros [= <- _ _] _ _. by rewrite app_nil_r. }
  rewrite for_each_cons. intros Hloop [Hd Hnodup]%NoDup_cons Hfresh.
  destruct (load_variant_cases path d w)
    as [Hskip|[(pre & name & post & Hentries & Hpre & Hname)
              |(entries & name & Hentries & Hfirst)]].
  - rewrite load_variant_skip in Hloop by done.
    rewrite filter_cons_False
      by (rewrite (has_checkpoints_skip _ _ _ Hskip); done).
    apply (IH _ _ _ Hloop Hnodup). intros d' ?.
    apply Hfresh, elem_of_cons. by right.
  - by rewrite (load_variant_stat_error _ _ _ _ _ _ _ Hentries Hpre Hname)
      in Hloop.
  - rewrite (load_variant_run _ _ _ _ _ _ _ Hentries Hfirst) in Hloop.
    destruct (from_pretrained _ _) as [e|m]; [done|].
    apply first_newest_nonempty in Hfirst as (e & entries' & ->).
    rewrite filter_cons_True by by erewrite has_checkpoints_cons.
    apply IH in Hloop; [|done|].
    + rewrite Hloop, dict_keys_set.
      rewrite decide_False by (apply Hfresh, elem_of_cons; by left).
      by rewrite <-app_assoc.
    + intros d' Hd'. rewrite dict_keys_set.
      rewrite decide_False by (apply Hfresh, elem_of_cons; by left).
      rewrite not_elem_of_app, list_elem_of_singleton. split.
      * apply Hfresh, elem_of_cons. by right.
      * intros ->. done.
Qed.

(** X1. When discovery returns, the keys of the collection are the
    entries of the root that are directories with at least one entry, in
    the order of the listing; regular files and empty directories of the
    root leave no key. *)
Theorem discovery_keys_in_listing_order path w models arch w' dirs :
  load_latest_checkpoints path w = (Return (models, arch), w') →
  listdir (w_fs w) path = inr dirs → NoDup dirs →
  Dict.keys models
  = filter (λ d, has_checkpoints (w_fs w) path d = true) dirs.
Proof.
  intros Hrun Hdirs Hnodup.
  rewrite (load_latest_checkpoints_dir _ _ _ Hdirs) in Hrun.
  apply discovery_loop_keys in Hrun; [done..|].
  intros ? _. apply not_elem_of_nil.
Qed.

(** A model that is right for its variant stays in the collection. *)
Lemma discovery_loop_keeps_right path dirs models0 arch0 w models arch w'
    d m :
  for_each dirs (load_variant path) (models0, arch0) w
    = (Return (models, arch), w') →
  Dict.get models0 d = Some m →
  (∀ entries name m',
     listdir (w_fs w) (path_join path d) = inr entries →
     first_newest (w_fs w) (path_join path d) entries name →
     from_pretrained (w_fs w) (path_join (path_join path d) name) = inr m' →
     m' = m) →
  Dict.get models d = Some m.
Proof.
  revert models0 arch0 w. induction dirs as [|d0 dirs IH];
    intros models0 arch0 w; [by intros [= <- _ _]|].
  rewrite for_each_cons. intros Hloop Hget Hright.
  destruct (load_variant_cases path d0 w)
    as [Hskip|[(pre & name & post & Hentries & Hpre & Hname)
              |(entries & name & Hentries & Hfirst)]].
  - rewrite load_variant_skip in Hloop by done.
    exact (IH _ _ _ Hloop Hget Hright).
  - by rewrite (load_variant_stat_error _ _ _ _ _ _ _ Hentries Hpre Hname)
      in Hloop.
  - rewrite (load_variant_run _ _ _ _ _ _ _ Hentries Hfirst) in Hloop.
    destruct (from_pretrained _ _) as [e|m0] eqn:Hm0; [done|].
    refine (IH _ _ _ Hloop _ Hright).
    destruct (decide (d0 = d)) as [->|Hne].
    + rewrite dict_get_set_eq. f_equal. by eapply Hright.
    + by rewrite dict_get_set_ne.
Qed.

Lemma discovery_loop_first path dirs models0 arch0 w models arch w'
    d entries :
  for_each dirs (load_variant path) (models0, arch0) w
    = (Return (models, arch), w') →
  d ∈ dirs →
  listdir (w_fs w) (path_join path d) = inr entries → entries ≠ [] →
  ∃ name m,
    first_newest (w_fs w) (path_join path d) entries name ∧
    from_pretrained (w_fs w) (path_join (path_join path d) name) = inr m ∧
    Dict.get models d = Some m.
Proof.
  revert models0 arch0 w. induction dirs as [|d0 dirs IH];
    intros models0 arch0 w; [by intros _ ?%elem_of_nil|].
  rewrite for_each_cons. intros Hloop Hd Hentries Hnonempty.
  destruct (load_variant_cases path d0 w)
    as [Hskip|[(pre & name & post & Hentries0 & Hpre & Hname)
              |(entries0 & name & Hentries0 & Hfirst)]].
  - rewrite load_variant_skip in Hloop by done.
    apply elem_of_cons in Hd as [->|Hd];
      [|exact (IH _ _ _ Hloop Hd Hentries Hnonempty)].
    destruct Hskip as [Hdir|Hnil]; [|congruence].
    assert (isdir (w_fs w) (path_join path d0) = true)
      by (apply isdir_listdir; eauto). congruence.
  - by rewrite (load_variant_stat_error _ _ _ _ _ _ _ Hentries0 Hpre Hname)
      in Hloop.
  - rewrite (load_variant_run _ _ _ _ _ _ _ Hentries0 Hfirst) in Hloop.
    destruct (from_pretrained _ _) as [e|m0] eqn:Hm0; [done|].
    destruct (decide (d ∈ dirs)) as [Hin|Hnin];
      [exact (IH _ _ _ Hloop Hin Hentries Hnonempty)|].
    assert (d = d0) as -> by (apply elem_of_cons in Hd as [?|?]; done).
    assert (entries0 = entries) as -> by congruence.
    exists name, m0. split_and!; [done..|].
    eapply discovery_loop_keeps_right; [exact Hloop|..].
    + by rewrite dict_get_set_eq.
    + simpl. intros entries' name' m' Hentries' Hfirst' Hm'.
      assert (entries' = entries) as -> by congruence.
      rewrite (first_newest_unique _ _ _ _ _ Hfirst' Hfirst) in Hm'.
      congruence.
Qed.

(** X2. When discovery returns, the model of a variant with entries is
    the one loaded from the entry that a stable descending sort puts
    first: the first entry, in the order of the listing, among those
    with the latest modification time.  That entry is unique. *)
Theorem discovery_loads_first_newest path w models arch w' dirs d entries :
  load_latest_checkpoints path w = (Return (models, arch), w') →
  listdir (w_fs w) path = inr dirs → d ∈ dirs →
  listdir (w_fs w) (path_join path d) = inr entries → entries ≠ [] →
  ∃ name m,
    first_newest (w_fs w) (path_join path d) entries name ∧
    (∀ name', first_newest (w_fs w) (path_join path d) entries name' →
              name' = name) ∧
    from_pretrained (w_fs w) (path_join (path_join path d) name) = inr m ∧
    Dict.get models d = Some m.
Proof.
  intros Hrun Hdirs Hd Hentries Hnonempty.
  rewrite (load_latest_checkpoints_dir _ _ _ Hdirs) in Hrun.
  destruct (discovery_loop_first _ _ _ _ _ _ _ _ _ _ Hrun Hd Hentries
              Hnonempty) as (name & m & Hfirst & Hm & Hget).
  exists name, m. split_and!; [done| |done..].
  intros name' Hfirst'. by eapply first_newest_unique.
Qed.

(** X3. A checkpoint that fails to load ends discovery, and with it
    [eval_models], with the loader's error.  Of the variant only its
    first newest entry is read: no older entry is tried, the models
    loaded before are dropped, nothing is written and no object is
    created. *)
Theorem load_error_is_fatal path tokenizer explainers test_set device ptg
    w0 pre d post st w1 entries name e :
  let w := with_stdout (w_stdout w0 ++ ["Loading models from " +:+ path]) w0 in
  let c := path_join (path_join path d) name in
  let w2 := with_load_calls (w_load_calls w1 ++ [c]) w1 in
  listdir (w_fs w0) path = inr (pre ++ d :: post) →
  for_each pre (load_variant path) (Dict.empty, None) w = (Return st, w1) →
  listdir (w_fs w0) (path_join path d) = inr entries →
  first_newest (w_fs w0) (path_join path d) entries name →
  from_pretrained (w_fs w0) c = inl e →
  load_latest_checkpoints path w = (Raise e, w2) ∧
  eval_models path tokenizer explainers test_set device ptg w0
    = (Raise e, w2) ∧
  w_fs w2 = w_fs w0 ∧ w_next_id w2 = w_next_id w0.
Proof.
  intros w c w2 Hdirs Hpre Hentries Hfirst Hload.
  destruct (discovery_loop_calls _ _ _ _ _ _ Hpre)
    as ((Hfs & _ & _ & _ & Hid) & _).
  simpl in Hfs, Hid.
  assert (Hrun : load_latest_checkpoints path w = (Raise e, w2)).
  { rewrite (load_latest_checkpoints_dir _ (pre ++ d :: post)) by done.
    erewrite for_each_app_return by exact Hpre.
    destruct st as [models arch].
    rewrite for_each_cons, (load_variant_run _ _ _ _ _ entries name);
      rewrite ?Hfs; [|done..].
    fold c. by rewrite Hload. }
  split_and!; [done| |done..].
  rewrite eval_models_run. fold w. by rewrite Hrun.
Qed.

Lemma discovery_loop_stat path dirs st w st' w' d entries e :
  for_each dirs (load_variant path) st w = (Return st', w') →
  d ∈ dirs →
  listdir (w_fs w) (path_join path d) = inr entries → e ∈ entries →
  is_Some (w_fs w !! path_join (path_join path d) e).
Proof.
  revert st w. induction dirs as [|d0 dirs IH]; intros [models arch] w;
    [by intros _ ?%elem_of_nil|].
  rewrite for_each_cons. intros Hloop Hd Hentries He.
  destruct (load_variant_cases path d0 w)
    as [Hskip|[(pre & name & post & Hentries0 & Hpre & Hname)
              |(entries0 & name & Hentries0 & Hfirst)]].
  - rewrite load_variant_skip in Hloop by done.
    apply elem_of_cons in Hd as [->|Hd];
      [|exact (IH _ _ Hloop Hd Hentries He)].
    destruct Hskip as [Hdir|Hnil].
    + assert (isdir (w_fs w) (path_join path d0) = true)
        by (apply isdir_listdir; eauto). congruence.
    + rewrite Hnil in Hentries. injection Hentries as <-.
      by apply elem_of_nil in He.
  - by rewrite (load_variant_stat_error _ _ _ _ _ _ _ Hentries0 Hpre Hname)
      in Hloop.
  - apply elem_of_cons in Hd as [->|Hd].
    + assert (entries0 = entries) as -> by congruence.
      destruct Hfirst as (pre & post & t & -> & Ht & Hpre & Hpost).
      assert (∃ t', getmtime (w_fs w) (path_join (path_join path d0) e)
                    = inr t') as [t' Ht'].
      { apply elem_of_app in He as [He|[->|He]%elem_of_cons].
        - destruct (Hpre e He) as (t' & ? & _). by exists t'.
        - by exists t.
        - destruct (Hpost e He) as (t' & ? & _). by exists t'. }
      unfold getmtime in Ht'.
      by destruct (w_fs w !! path_join (path_join path d0) e).
    + rewrite (load_variant_run _ _ _ _ _ _ _ Hentries0 Hfirst) in Hloop.
      destruct (from_pretrained _ _) as [?|m0]; [done|].
      exact (IH _ _ Hloop Hd Hentries He).
Qed.

(** X4. Discovery returns only if every entry of every variant directory
    has a modification time: one entry that cannot be examined (a
    dangling link, say) makes discovery raise, also when it is not the
    newest one. *)
Theorem discovery_needs_every_mtime path w models arch w' dirs d entries e :
  load_latest_checkpoints path w = (Return (models, arch), w') →
  listdir (w_fs w) path = inr dirs → d ∈ dirs →
  listdir (w_fs w) (path_join path d) = inr entries → e ∈ entries →
  is_Some (w_fs w !! path_join (path_join path d) e).
Proof.
  intros Hrun Hdirs. rewrite (load_latest_checkpoints_dir _ _ _ Hdirs) in Hrun.
  by eapply discovery_loop_stat.
Qed.

(** What the loop prints: one line per model it stores. *)
Lemma discovery_loop_output path dirs st w :
  let run := for_each dirs (load_variant path) st w in
  ∃ lines calls,
    w_stdout run.2 = w_stdout w ++ lines ∧
    w_load_calls run.2 = w_load_calls w ++ calls ∧
    length lines ≤ length calls ∧
    (∀ st', run.1 = Return st' → length lines = length calls).
Proof.
  revert st w. induction dirs as [|d0 dirs IH]; intros [models arch] w.
  { exists [], []. by rewrite !app_nil_r. }
  cbv zeta. rewrite for_each_cons.
  destruct (load_variant_cases path d0 w)
    as [Hskip|[(pre & name & post & Hentries0 & Hpre & Hname)
              |(entries0 & name & Hentries0 & Hfirst)]].
  - rewrite load_variant_skip by done. apply IH.
  - rewrite (load_variant_stat_error _ _ _ _ _ _ _ Hentries0 Hpre Hname).
    exists [], []. by rewrite !app_nil_r.
  - rewrite (load_variant_run _ _ _ _ _ _ _ Hentries0 Hfirst).
    destruct (from_pretrained _ _) as [?|m0].
    + exists [], [path_join (path_join path d0) name]. simpl.
      rewrite app_nil_r. split_and!; [done..|lia|done].
    + set (w1 := loaded _ _ w). set (st1 := (_, _)).
      destruct (IH st1 w1) as (lines & calls & Hout & Hcalls & Hle & Heq).
      eexists (_ :: lines), (_ :: calls). split_and!.
      * rewrite Hout. simpl. by rewrite <-app_assoc.
      * rewrite Hcalls. simpl. by rewrite <-app_assoc.
      * simpl. lia.
      * intros st' Hst'. simpl. f_equal. by eapply Heq.
Qed.

(** X6. Discovery only reads and reports: whatever its outcome, the
    file system, the figure, the random generator and the allocator are
    as before, lines are only added to the output and there is one line
    per model stored; the run always ends. *)
Theorem discovery_is_read_only path w :
  let run := load_latest_checkpoints path w in
  same_resources w run.2 ∧ run.1 ≠ Unfinished ∧
  ∃ lines calls,
    w_stdout run.2 = w_stdout w ++ lines ∧
    w_load_calls run.2 = w_load_calls w ++ calls ∧
    length lines ≤ length calls ∧
    (∀ st, run.1 = Return st → length lines = length calls).
Proof.
  intros run.
  destruct (load_latest_checkpoints_frame path w run.1 run.2)
    as [Hsame Hfin]; [apply surjective_pairing|].
  split_and!; [done..|]. subst run.
  destruct (isdir (w_fs w) path) eqn:Hdir.
  - apply isdir_listdir in Hdir as [dirs Hdirs].
    rewrite (load_latest_checkpoints_dir _ _ _ Hdirs).
    apply discovery_loop_output.
  - rewrite load_latest_checkpoints_not_dir by done.
    exists [], []. by rewrite !app_nil_r.
Qed.

(** * Further properties of the evaluator matrix and the scores *)

Lemma fill_matrix_app tokenizer device models l1 l2 n d :
  fill_matrix tokenizer device models (l1 ++ l2) n d
  = fill_matrix tokenizer device models l2
      (n + 2 * (length l1 * Dict.len models))
      (fill_matrix tokenizer device models l1 n d).
Proof.
  revert n d. induction l1 as [|cls l1 IH]; intros n d; simpl.
  - by rewrite Nat.add_0_r.
  - rewrite IH. f_equal. lia.
Qed.

Lemma fill_matrix_get_other tokenizer device models explainers n d k :
  (∀ cls, cls ∈ explainers → cls_name cls ≠ k) →
  Dict.get (fill_matrix tokenizer device models explainers n d) k
  = Dict.get d k.
Proof.
  revert n d. induction explainers as [|cls explainers IH]; intros n d Hk;
    simpl; [done|].
  rewrite IH by (intros c ?; apply Hk, elem_of_cons; by right).
  apply dict_get_set_ne, Hk, elem_of_cons. by left.
Qed.

(** X8. A class that is requested more than once has one row in the
    matrix, and the evaluators in it are those created for its last
    occurrence: line 31 starts the row afresh, so the evaluators created
    for an earlier occurrence are not in the matrix. *)
Theorem last_request_of_a_class_wins l1 cls l2 models tokenizer device w :
  Dict.wf models → cls ∉ l2 →
  ∃ matrix w',
    build_evaluators (l1 ++ cls :: l2) models tokenizer device w
    = (Return matrix, w') ∧
    Dict.get matrix (cls_name cls)
    = Some (make_row tokenizer device cls
              (w_next_id w + 2 * (length l1 * Dict.len models)) models).
Proof.
  intros Hwf Hlast. unfold build_evaluators.
  rewrite build_evaluators_loop by done. eexists _, _. split; [done|].
  rewrite fill_matrix_app. simpl.
  rewrite fill_matrix_get_other; [by rewrite dict_get_set_eq|].
  intros c Hc Heq. apply (inj cls_name) in Heq. congruence.
Qed.

(** Where a score of the mapping comes from. *)
Lemma score_loop_values exp test_set ptg items acc w infidelities w' v s :
  for_each items (score_model exp test_set ptg) acc w
    = (Return infidelities, w') →
  Dict.get infidelities v = Some s →
  Dict.get acc v = Some s ∨
  ∃ ev g, (v, ev) ∈ items ∧
          (infidelity_mask_top_k ev test_set 1 ptg g).1 = inr s.
Proof.
  revert acc w. induction items as [|[model ev] items IH]; intros acc w.
  { intros [= <- _] ?. by left. }
  rewrite for_each_cons, score_model_run.
  destruct (infidelity_mask_top_k ev test_set 1 ptg (w_rng w))
    as [[e|infid] g] eqn:Hmetric; [done|].
  intros Hloop Hget. destruct (IH _ _ Hloop Hget) as [Hacc|(ev' & g' & ? & ?)].
  - destruct (decide (model = v)) as [->|Hne].
    + rewrite dict_get_set_eq in Hacc. injection Hacc as ->.
      right. exists ev, (w_rng w). split; [apply elem_of_cons; by left|].
      by rewrite Hmetric.
    + rewrite dict_get_set_ne in Hacc by done. by left.
  - right. exists ev', g'. split; [apply elem_of_cons; by right|done].
Qed.

(** The loop prints one line per score. *)
Lemma score_loop_output exp test_set ptg items acc w infidelities w' :
  for_each items (score_model exp test_set ptg) acc w
    = (Return infidelities, w') →
  ∃ lines, w_stdout w' = w_stdout w ++ lines ∧ length lines = length items.
Proof.
  revert acc w. induction items as [|[model ev] items IH]; intros acc w.
  { intros [= _ <-]. exists []. by rewrite app_nil_r. }
  rewrite for_each_cons, score_model_run.
  destruct (infidelity_mask_top_k ev test_set 1 ptg (w_rng w))
    as [[e|infid] g]; [done|].
  intros (lines & Hout & Hlen)%IH. eexists (_ :: lines). split.
  - rewrite Hout. simpl. by rewrite <-app_assoc.
  - simpl. by rewrite Hlen.
Qed.

(** X9. When the scores of one explainer are collected, the mapping has
    the variants of the evaluators as keys, in the same order, each score
    is what the metric returned for that variant's evaluator with
    [k = 1], and one line per variant is printed. *)
Theorem infidelities_follow_the_evaluators exp evaluators test_set ptg w
    infidelities w' :
  Dict.wf evaluators →
  collect_infidelities exp evaluators test_set ptg w
    = (Return infidelities, w') →
  Dict.keys infidelities = Dict.keys evaluators ∧
  (∀ v s, Dict.get infidelities v = Some s →
     ∃ ev g, Dict.get evaluators v = Some ev ∧
             (infidelity_mask_top_k ev test_set 1 ptg g).1 = inr s) ∧
  ∃ lines, w_stdout w' = w_stdout w ++ lines ∧
           length lines = Dict.len evaluators.
Proof.
  intros Hwf Hrun. unfold collect_infidelities in Hrun. split_and!.
  - apply score_loop_keys in Hrun; [done..|].
    intros ? _. apply not_elem_of_nil.
  - intros v s Hget.
    destruct (score_loop_values _ _ _ _ _ _ _ _ _ _ Hrun Hget)
      as [[=]|(ev & g & Hin & Hs)].
    exists ev, g. split; [by apply dict_get_item|done].
  - by apply score_loop_output in Hrun.
Qed.

(** * Further properties of the charts *)

(** One iteration of the loop over the explainers: either the scoring
    raises and nothing is drawn or written, or the chart is drawn on the
    current figure and, if its directory exists, written to the first
    unused path; if the directory does not exist [plt.savefig] raises and
    no file is written. *)
Lemma evaluate_explainer_step arch test_set ptg exp evaluators w :
  let scored :=
    collect_infidelities exp evaluators test_set ptg (announce exp w) in
  let run := evaluate_explainer arch test_set ptg tt (exp, evaluators) w in
  match scored.1 with
  | Return infidelities =>
      ∃ i,
        let file_path := candidate (chart_base exp arch) ".png" i in
        let fig := drawn (w_figure w) exp arch infidelities in
        w_fs w !! file_path = None ∧
        (∀ j, j < i →
           is_Some (w_fs w !! candidate (chart_base exp arch) ".png" j)) ∧
        w_figure run.2 = fig ∧ w_rng run.2 = w_rng scored.2 ∧
        ((run.1 = Return tt ∧
          isdir (w_fs w) (chart_dir exp arch) = true ∧
          w_fs run.2 = <[file_path := Inode (w_clock w) (Image fig 300)]>
                         (w_fs w)) ∨
         ((∃ e, run.1 = Raise e) ∧
          isdir (w_fs w) (chart_dir exp arch) = false ∧
          w_fs run.2 = w_fs w))
  | Raise e =>
      run = (Raise e, scored.2) ∧
      w_fs run.2 = w_fs w ∧ w_figure run.2 = w_figure w
  | Unfinished => False
  end ∧
  w_clock run.2 = w_clock w ∧ w_next_id run.2 = w_next_id w ∧
  w_load_calls run.2 = w_load_calls w.
Proof.
  intros scored run. subst run. rewrite evaluate_explainer_run.
  fold scored. destruct scored as [r w1] eqn:Hscored.
  apply score_loop_frame in Hscored
    as (Hfs & Hclock & Hfig & Hid & Hcalls & Hfin).
  simpl in Hfs, Hclock, Hfig, Hid, Hcalls.
  destruct r as [infidelities|e|]; [|by simpl; rewrite Hfs, Hfig|done].
  set (w2 := with_figure (drawn (w_figure w1) exp arch infidelities) w1).
  assert (Hfs2 : w_fs w2 = w_fs w) by done.
  destruct (isdir (w_fs w) (chart_dir exp arch)) eqn:Hdir.
  - destruct (save_chart_writes exp arch w2) as (i & -> & Hfree & Hbefore);
      [by rewrite Hfs2|].
    simpl in *. rewrite Hfs in Hfree, Hbefore. rewrite Hfs, Hclock, Hfig.
    split_and!; [|done..]. exists i. split_and!; [done..|]. by left.
  - destruct (save_chart_spec exp arch w2) as (i & _ & Hfree & Hbefore).
    destruct (save_chart_raises exp arch w2) as (e & ->);
      [by rewrite Hfs2|].
    simpl in *. rewrite Hfs in Hfree, Hbefore. rewrite Hfs, Hfig.
    split_and!; [|done..]. exists i. split_and!; [done..|].
    right. split_and!; [by exists e|done..].
Qed.

Lemma collect_infidelities_keys exp evaluators test_set ptg w
    infidelities w' :
  collect_infidelities exp evaluators test_set ptg w
    = (Return infidelities, w') →
  Dict.wf evaluators →
  Dict.keys infidelities = Dict.keys evaluators ∧
  Dict.len infidelities = Dict.len evaluators.
Proof.
  intros Hrun Hwf.
  assert (Hkeys : Dict.keys infidelities = Dict.keys evaluators).
  { apply score_loop_keys in Hrun; [done..|].
    intros ? _. apply not_elem_of_nil. }
  split; [done|]. unfold Dict.len, Dict.keys in *.
  by rewrite <-(length_fmap fst infidelities), Hkeys, length_fmap.
Qed.




(** X12. An export takes the next free suffix: when the directory of
    the chart exists, the first [k] candidate paths exist and the next
    one does not, the chart is written to that one, which makes the first
    [k + 1] candidates exist and changes no other path.  So repeated
    exports of one chart name go to [base.png], [base_1.png],
    [base_2.png], ... *)
Theorem export_takes_next_suffix exp arch w k :
  let cand := candidate (chart_base exp arch) ".png" in
  isdir (w_fs w) (chart_dir exp arch) = true →
  (∀ j, j < k → is_Some (w_fs w !! cand j)) →
  w_fs w !! cand k = None →
  ∃ w',
    save_chart exp arch w = (Return tt, w') ∧
    w_fs w' = <[cand k := Inode (w_clock w) (Image (w_figure w) 300)]>
                (w_fs w) ∧
    (∀ j, j < S k → is_Some (w_fs w' !! cand j)) ∧
    (∀ q, q ≠ cand k → w_fs w' !! q = w_fs w !! q) ∧
    w_figure w' = w_figure w.
Proof.
  intros cand Hdir Hbefore Hfree.
  destruct (save_chart_writes exp arch w Hdir)
    as (i & Hrun & Hfree' & Hbefore').
  fold cand in Hrun, Hfree', Hbefore'.
  assert (i = k) as ->.
  { destruct (Nat.lt_trichotomy i k) as [Hlt|[->|Hlt]]; [|done|].
    - destruct (Hbefore _ Hlt) as [? ?]. congruence.
    - destruct (Hbefore' _ Hlt) as [? ?]. congruence. }
  eexists. split_and!; [exact Hrun|done| | |done].
  - intros j Hj. simpl. destruct (decide (j = k)) as [->|Hne].
    + by rewrite lookup_insert_eq.
    + rewrite lookup_insert_ne by (intros ?%(inj cand); done).
      apply Hbefore. lia.
  - intros q Hq. simpl. by rewrite lookup_insert_ne.
Qed.

(** * Further properties of whole runs *)

Lemma score_loop_returns exp test_set ptg items acc w :
  (∀ ev g, ∃ s g', infidelity_mask_top_k ev test_set 1 ptg g = (inr s, g')) →
  ∃ infidelities w',
    for_each items (score_model exp test_set ptg) acc w
    = (Return infidelities, w').
Proof.
  intros Hmetric. revert acc w.
  induction items as [|[model ev] items IH]; intros acc w.
  - by eexists _, _.
  - rewrite for_each_cons, score_model_run.
    destruct (Hmetric ev (w_rng w)) as (s & g' & ->). apply IH.
Qed.

(** With a metric that does not raise and the directories of the charts
    in place, the loop over the explainers returns and writes one new
    file for each of them. *)
Lemma evaluate_loop_returns arch test_set ptg items w :
  (∀ ev g, ∃ s g', infidelity_mask_top_k ev test_set 1 ptg g = (inr s, g')) →
  Forall (λ item : string * Dict.t Evaluator, Dict.wf item.2) items →
  Forall (λ item : string * Dict.t Evaluator,
            isdir (w_fs w) (chart_dir item.1 arch) = true) items →
  ∃ w', for_each items (evaluate_explainer arch test_set ptg) tt w
        = (Return tt, w') ∧
    w_clock w' = w_clock w ∧
    size (w_fs w') = size (w_fs w) + length items ∧
    (∀ q, is_Some (w_fs w !! q) → w_fs w' !! q = w_fs w !! q) ∧
    ∀ exp row, (exp, row) ∈ items →
      ∃ i fig,
        let file_path := candidate (chart_base exp arch) ".png" i in
        w_fs w !! file_path = None ∧
        w_fs w' !! file_path = Some (Inode (w_clock w) (Image fig 300)) ∧
        fig_title fig = chart_title exp arch ∧
        fig_xticks fig = Some (seq 0 (Dict.len row), Dict.keys row).
Proof.
  intros Hmetric. revert w.
  induction items as [|[exp row] items IH]; intros w Hrows Hdirs.
  { exists w. split_and!; [done..|cbn [length]; lia|done|].
    by intros ? ? ?%elem_of_nil. }
  apply Forall_cons in Hrows as [Hwf Hrows]. simpl in Hwf.
  apply Forall_cons in Hdirs as [Hdir Hdirs]. simpl in Hdir.
  rewrite for_each_cons.
  destruct (evaluate_explainer_step arch test_set ptg exp row w)
    as (Hstep & Hclock1 & _).
  destruct (score_loop_returns exp test_set ptg (Dict.items row) Dict.empty
              (announce exp w) Hmetric) as (infidelities & w0 & Hscored).
  fold (collect_infidelities exp row test_set ptg (announce exp w))
    in Hscored.
  rewrite Hscored in Hstep.
  destruct (collect_infidelities_keys _ _ _ _ _ _ _ Hscored Hwf)
    as [Hkeys Hlen].
  destruct (evaluate_explainer _ _ _ _ _ w) as [r1 w1].
  simpl in Hstep.
  destruct Hstep
    as (i & Hfree & _ & _ & _ & [(Hr1 & _ & Hfs1)|(_ & Hno & _)]);
    [|congruence].
  simpl in Hr1, Hfs1, Hclock1. subst r1.
  assert (Hdirs1 : Forall (λ item : string * Dict.t Evaluator,
                             isdir (w_fs w1) (chart_dir item.1 arch) = true)
                     items).
  { eapply Forall_impl; [exact Hdirs|]. intros item Hitem. rewrite Hfs1.
    by apply isdir_insert_new. }
  destruct (IH w1 Hrows Hdirs1)
    as (w' & Hloop & Hclock & Hsize & Hkeep & Hfiles).
  exists w'. split_and!.
  - done.
  - by rewrite Hclock.
  - rewrite Hsize, Hfs1, map_size_insert_None by done. cbn [length]. lia.
  - intros q [n Hq]. rewrite Hkeep; rewrite Hfs1, lookup_insert_ne; try done.
    + intros <-. congruence.
    + intros <-. congruence.
  - intros exp' row' [[= -> ->]|Hin]%elem_of_cons.
    + exists i, (drawn (w_figure w) exp arch infidelities).
      split_and!; [done| |done|].
      * rewrite Hkeep; rewrite Hfs1, lookup_insert_eq; done.
      * simpl. by rewrite Hlen, Hkeys.
    + destruct (Hfiles _ _ Hin) as (i' & fig & Hnew & Hfile & ? & ?).
      exists i', fig. rewrite Hclock1 in Hfile. split_and!; try done.
      rewrite Hfs1 in Hnew. by apply lookup_insert_None in Hnew as [? _].
Qed.

Lemma load_latest_checkpoints_wf path w models arch w' :
  load_latest_checkpoints path w = (Return (models, arch), w') →
  Dict.wf models.
Proof.
  intros Hrun. destruct (isdir (w_fs w) path) eqn:Hdir;
    [|by rewrite load_latest_checkpoints_not_dir in Hrun].
  apply isdir_listdir in Hdir as [dirs Hdirs].
  rewrite (load_latest_checkpoints_dir _ _ _ Hdirs) in Hrun.
  apply discovery_loop_models in Hrun as (_ & _ & _ & Hwf & _).
  apply Hwf, dict_wf_empty.
Qed.

(** X13. A run whose discovery returns and whose metric does not raise
    returns when [results/figs] is a directory and the architecture label
    holds no separator, and for every requested class it writes one file
    that did not exist before: a chart titled for the class and the
    architecture whose ticks carry the names of the models of the
    collection, in its order.  Files that existed before are unchanged,
    and distinct classes make the file system grow by one file each. *)
Theorem successful_run_writes_every_chart path tokenizer explainers test_set
    device ptg w models arch w1 :
  load_latest_checkpoints path
    (with_stdout (w_stdout w ++ ["Loading models from " +:+ path]) w)
    = (Return (models, arch), w1) →
  (∀ ev g, ∃ s g', infidelity_mask_top_k ev test_set 1 ptg g = (inr s, g')) →
  isdir (w_fs w) "results/figs" = true →
  has_sep (str_of_arch arch) = false →
  ∃ w', eval_models path tokenizer explainers test_set device ptg w
        = (Return tt, w') ∧
    (∀ q, is_Some (w_fs w !! q) → w_fs w' !! q = w_fs w !! q) ∧
    (∀ cls, cls ∈ explainers →
       ∃ i fig,
         let file_path :=
           candidate (chart_base (cls_name cls) arch) ".png" i in
         w_fs w !! file_path = None ∧
         w_fs w' !! file_path = Some (Inode (w_clock w) (Image fig 300)) ∧
         fig_title fig = chart_title (cls_name cls) arch ∧
         fig_xticks fig
         = Some (seq 0 (Dict.len models), Dict.keys models)) ∧
    (NoDup explainers →
     size (w_fs w') = size (w_fs w) + length explainers).
Proof.
  intros Hload Hmetric Hfigs Harch.
  assert (Hwf : Dict.wf models)
    by by eapply load_latest_checkpoints_wf.
  destruct (load_latest_checkpoints_frame _ _ _ _ Hload)
    as ((Hfs1 & Hclock1 & _) & _). simpl in Hfs1, Hclock1.
  rewrite eval_models_run, Hload. unfold build_evaluators.
  rewrite build_evaluators_loop by done.
  set (w2 := with_next_id _ _). set (matrix := fill_matrix _ _ _ _ _ _).
  assert (Hrows : Forall (λ row, Dict.keys row = Dict.keys models)
                    (Dict.values matrix))
    by (apply fill_matrix_rows; constructor).
  assert (Hwfs : Forall (λ item : string * Dict.t Evaluator,
                           Dict.wf item.2) matrix).
  { apply (Forall_fmap snd (λ row, Dict.wf row)).
    eapply Forall_impl; [exact Hrows|]. intros row Hrow.
    unfold Dict.wf. by rewrite Hrow. }
  assert (Hfs2 : w_fs w2 = w_fs w) by done.
  assert (Hclock2 : w_clock w2 = w_clock w) by done.
  assert (Hdirs : Forall (λ item : string * Dict.t Evaluator,
                            isdir (w_fs w2) (chart_dir item.1 arch) = true)
                    matrix).
  { apply Forall_forall. intros [exp row] Hitem.
    change (isdir (w_fs w2) (chart_dir exp arch) = true).
    assert (Hkey : exp ∈ Dict.keys matrix)
      by (apply list_elem_of_fmap; by exists (exp, row)).
    apply fill_matrix_keys in Hkey as [Hkey|(cls & _ & <-)].
    { by apply elem_of_nil in Hkey. }
    rewrite chart_dir_plain; [|apply cls_name_no_sep|done].
    by rewrite Hfs2. }
  destruct (evaluate_loop_returns arch test_set ptg matrix w2 Hmetric Hwfs
              Hdirs)
    as (w' & Hloop & Hclock & Hsize & Hkeep & Hfiles).
  exists w'. rewrite Hfs2 in *. rewrite Hclock2 in *. split_and!.
  - done.
  - done.
  - intros cls Hcls.
    assert (Hkey : cls_name cls ∈ Dict.keys matrix)
      by (apply fill_matrix_keys; right; by exists cls).
    apply dict_get_Some_keys in Hkey as [row Hrow].
    assert (Hrowkeys : Dict.keys row = Dict.keys models).
    { apply dict_get_values in Hrow.
      by apply (proj1 (Forall_forall _ _) Hrows). }
    apply dict_get_elem_of in Hrow.
    destruct (Hfiles _ _ Hrow) as (i & fig & ? & ? & ? & Hticks).
    exists i, fig. split_and!; [done..|].
    rewrite Hticks, Hrowkeys. do 3 f_equal. unfold Dict.len, Dict.keys in *.
    by rewrite <-(length_fmap fst row), Hrowkeys, length_fmap.
  - intros Hnodup. rewrite Hsize. f_equal.
    rewrite <-(length_fmap fst matrix). fold (Dict.keys matrix).
    unfold matrix. rewrite fill_matrix_keys_nodup; [|done|].
    + csimpl. by rewrite length_fmap.
    + intros ? _. apply not_elem_of_nil.
Qed.

(** Whatever its outcome, the loop over the explainers ends and leaves
    every file that existed as it was. *)
Lemma evaluate_loop_safe arch test_set ptg items w :
  let run := for_each items (evaluate_explainer arch test_set ptg) tt w in
  run.1 ≠ Unfinished ∧
  (∀ q, is_Some (w_fs w !! q) → w_fs run.2 !! q = w_fs w !! q) ∧
  w_load_calls run.2 = w_load_calls w ∧ w_next_id run.2 = w_next_id w.
Proof.
  revert w. induction items as [|[exp row] items IH]; intros w; [done|].
  cbv zeta. rewrite for_each_cons.
  destruct (evaluate_explainer_step arch test_set ptg exp row w)
    as (Hstep & _ & Hid & Hcalls).
  destruct (collect_infidelities _ _ _ _ _) as [r0 w0].
  destruct (evaluate_explainer _ _ _ _ _ w) as [r1 w1].
  simpl in Hstep, Hid, Hcalls.
  destruct r0 as [infidelities|e|]; [| |done].
  - destruct Hstep
      as (i & Hfree & _ & _ & _ & [(-> & _ & Hfs1)|([e ->] & _ & Hfs1)]).
    + destruct (IH w1) as (Hfin & Hkeep & Hcalls' & Hid').
      split_and!; [done| |congruence..].
      intros q [n Hq].
      rewrite Hkeep; rewrite Hfs1, lookup_insert_ne; try done.
      * intros <-. congruence.
      * intros <-. congruence.
    + simpl in *. split_and!; [done| |done..]. intros q _. by rewrite Hfs1.
  - destruct Hstep as ([= -> ->] & Hfs & _). simpl in *.
    split_and!; [done| |done..]. intros q _. by rewrite Hfs.
Qed.

(** X14. Whatever the inputs and whatever the outcome, [eval_models]
    ends, by returning or by raising, and every file that existed before
    the run is still there with the same content: the run only ever adds
    files. *)
Theorem run_ends_and_keeps_existing_files path tokenizer explainers test_set
    device ptg w :
  let run := eval_models path tokenizer explainers test_set device ptg w in
  run.1 ≠ Unfinished ∧
  ∀ q, is_Some (w_fs w !! q) → w_fs run.2 !! q = w_fs w !! q.
Proof.
  cbv zeta. rewrite eval_models_run.
  destruct (load_latest_checkpoints path _) as [r1 w1] eqn:Hload.
  destruct (load_latest_checkpoints_frame _ _ _ _ Hload)
    as ((Hfs1 & _) & Hfin1). simpl in Hfs1.
  destruct r1 as [[models arch]|e|]; [|by simpl; rewrite Hfs1|done].
  apply load_latest_checkpoints_wf in Hload.
  unfold build_evaluators. rewrite build_evaluators_loop by done.
  set (w2 := with_next_id _ _). set (matrix := fill_matrix _ _ _ _ _ _).
  destruct (evaluate_loop_safe arch test_set ptg matrix w2)
    as (Hfin & Hkeep & _).
  assert (Hfs2 : w_fs w2 = w_fs w) by (simpl; done).
  rewrite Hfs2 in Hkeep. done.
Qed.

(** With distinct names in the listing, the loop only appends to the
    collection, one model per checkpoint read. *)
Lemma discovery_loop_appends path dirs models0 arch0 w models arch w' :
  for_each dirs (load_variant path) (models0, arch0) w
    = (Return (models, arch), w') →
  NoDup dirs → (∀ d, d ∈ dirs → d ∉ Dict.keys models0) →
  ∃ added calls,
    models = models0 ++ added ∧
    w_load_calls w' = w_load_calls w ++ calls ∧
    length added = length calls.
Proof.
  revert models0 arch0 w. induction dirs as [|d dirs IH];
    intros models0 arch0 w.
  { intros [= <- _ <-] _ _. exists [], []. by rewrite !app_nil_r. }
  rewrite for_each_cons. intros Hloop [Hd Hnodup]%NoDup_cons Hfresh.
  destruct (load_variant_cases path d w)
    as [Hskip|[(pre & name & post & Hentries & Hpre & Hname)
              |(entries & name & Hentries & Hfirst)]].
  - rewrite load_variant_skip in Hloop by done.
    apply (IH _ _ _ Hloop Hnodup). intros d' ?.
    apply Hfresh, elem_of_cons. by right.
  - by rewrite (load_variant_stat_error _ _ _ _ _ _ _ Hentries Hpre Hname)
      in Hloop.
  - rewrite (load_variant_run _ _ _ _ _ _ _ Hentries Hfirst) in Hloop.
    destruct (from_pretrained _ _) as [e|m]; [done|].
    rewrite dict_set_fresh in Hloop
      by (apply Hfresh, elem_of_cons; by left).
    apply IH in Hloop as (added & calls & -> & Hcalls & Hlen); [|done|].
    + eexists (_ :: added), (_ :: calls). split_and!.
      * by rewrite <-app_assoc.
      * rewrite Hcalls. simpl. by rewrite <-app_assoc.
      * simpl. by rewrite Hlen.
    + intros d' Hd'. unfold Dict.keys. rewrite fmap_app.
      apply not_elem_of_app. split.
      * apply Hfresh, elem_of_cons. by right.
      * csimpl. intros ->%list_elem_of_singleton. done.
Qed.

(** X7. When discovery returns, it has read exactly one checkpoint for
    each model of the collection. *)
Theorem one_checkpoint_read_per_model path w models arch w' dirs :
  load_latest_checkpoints path w = (Return (models, arch), w') →
  listdir (w_fs w) path = inr dirs → NoDup dirs →
  ∃ calls, w_load_calls w' = w_load_calls w ++ calls ∧
           length calls = Dict.len models.
Proof.
  intros Hrun Hdirs Hnodup.
  rewrite (load_latest_checkpoints_dir _ _ _ Hdirs) in Hrun.
  apply discovery_loop_appends in Hrun
    as (added & calls & -> & Hcalls & Hlen); [|done|].
  - exists calls. split; [done|]. by rewrite <-Hlen.
  - intros ? _. apply not_elem_of_nil.
Qed.

(** X16. When discovery returns, the architecture label is the class
    name of the first model of the collection, and None for the empty
    collection.  Class names are taken to be non-empty. *)
Theorem label_is_class_of_first_model path w models arch w' dirs :
  (∀ m, class_name m ≠ "") →
  load_latest_checkpoints path w = (Return (models, arch), w') →
  listdir (w_fs w) path = inr dirs → NoDup dirs →
  arch = class_name <$> head (Dict.values models).
Proof.
  intros Hname Hrun Hdirs Hnodup.
  rewrite (load_latest_checkpoints_dir _ _ _ Hdirs) in Hrun.
  revert Hrun. generalize w. clear Hdirs.
  induction dirs as [|d dirs IH]; intros w0; [by intros [= <- <- _]|].
  apply NoDup_cons in Hnodup as [Hd Hnodup].
  rewrite for_each_cons.
  destruct (load_variant_cases path d w0)
    as [Hskip|[(pre & name & post & Hentries & Hpre & Hname')
              |(entries & name & Hentries & Hfirst)]].
  - rewrite load_variant_skip by done. by apply IH.
  - by rewrite (load_variant_stat_error _ _ _ _ _ _ _ Hentries Hpre Hname').
  - rewrite (load_variant_run _ _ _ _ _ _ _ Hentries Hfirst).
    destruct (from_pretrained _ _) as [e|m]; [done|].
    intros Hloop. simpl in Hloop.
    assert (arch = Some (class_name m)) as ->.
    { eapply discovery_loop_keeps_arch; [|exact Hloop].
      simpl. by rewrite bool_decide_false. }
    apply discovery_loop_appends in Hloop as (added & _ & -> & _); [done..|].
    intros d' Hd' [->|?%elem_of_nil]%elem_of_cons; done.
Qed.


(** X5. Discovery returns a collection whenever the root is a directory,
    every entry of every variant directory has a modification time, and
    every newest entry of a variant can be loaded. *)
Theorem discovery_returns path dirs w :
  listdir (w_fs w) path = inr dirs →
  (∀ d entries e, d ∈ dirs →
     listdir (w_fs w) (path_join path d) = inr entries → e ∈ entries →
     is_Some (w_fs w !! path_join (path_join path d) e)) →
  (∀ d c, d ∈ dirs → newest (w_fs w) (path_join path d) c →
     ∃ m, from_pretrained (w_fs w) c = inr m) →
  ∃ models arch w',
    load_latest_checkpoints path w = (Return (models, arch), w') ∧
    same_resources w w'.
Proof.
  intros Hdirs Hstat Hload. rewrite (load_latest_checkpoints_dir _ _ _ Hdirs).
  destruct (discovery_loop_returns path dirs (Dict.empty, None) w Hstat Hload)
    as ([models arch] & w' & Hrun).
  exists models, arch, w'. split; [done|].
  by apply discovery_loop_calls in Hrun as (? & _).
Qed.


(** * The chart directory *)




(** A run for one class writes its chart or nothing. *)
Lemma single_class_run_cases path tokenizer cls test_set device ptg w :
  let run := eval_models path tokenizer [cls] test_set device ptg w in
  match run.1 with
  | Return _ =>
      ∃ file_path fig,
        w_fs w !! file_path = None ∧
        w_fs run.2
        = <[file_path := Inode (w_clock w) (Image fig 300)]> (w_fs w)
  | Raise _ => w_fs run.2 = w_fs w
  | Unfinished => False
  end.
Proof.
  cbv zeta. rewrite eval_models_run.
  destruct (load_latest_checkpoints path _) as [r1 w1] eqn:Hload.
  destruct (load_latest_checkpoints_frame _ _ _ _ Hload)
    as ((Hfs1 & Hclock1 & _) & Hfin1). simpl in Hfs1, Hclock1.
  destruct r1 as [[models arch]|e|]; [|done..].
  apply load_latest_checkpoints_wf in Hload.
  unfold build_evaluators. rewrite build_evaluators_loop by done.
  unfold evaluate_all, Dict.items. cbn [fill_matrix].
  set (row := make_row _ _ _ _ _). set (w2 := with_next_id _ _).
  change (Dict.set Dict.empty (cls_name cls) row)
    with [(cls_name cls, row)].
  rewrite for_each_cons.
  destruct (evaluate_explainer_step arch test_set ptg (cls_name cls) row w2)
    as [Hstep _].
  destruct (collect_infidelities _ _ _ _ _) as [r w3].
  destruct (evaluate_explainer _ _ _ _ _ w2) as [r4 w4].
  simpl in Hstep.
  destruct r as [infidelities|e|]; [| |done].
  - destruct Hstep
      as (i & Hfree & _ & _ & _ & [(Hr4 & _ & Hfs4)|([e Hr4] & _ & Hfs4)]);
      simpl in Hr4, Hfs4; subst r4; simpl.
    + rewrite Hfs1 in Hfree. rewrite Hfs1, Hclock1 in Hfs4. by eexists _, _.
    + by rewrite Hfs4.
  - destruct Hstep as ([= -> ->] & Hfs & _). simpl in *. by rewrite Hfs.
Qed.

End Pipeline.

(** * The entry point *)

Section Main.

Context {Model TokenizerT DatasetT Device Score Ptg Rng : Type}.

Variable class_name : Model -> string.
Variable str_of_score : Score -> string.
Variable from_pretrained : gmap string (@inode Score) -> string -> exn + Model.
Variable infidelity_mask_top_k :
  @Evaluator Model (option TokenizerT) Device -> option DatasetT -> nat ->
  Ptg -> Rng -> (exn + Score) * Rng.

(** [torch.device('cpu')], and the default [ptg=0.05] of [eval_models]. *)
Variable cpu : Device.
Variable default_ptg : Ptg.

(** Lines 116-123: the tokenizer and the test set are still None. *)
Definition main : @M Score Rng unit :=
  let path := "./ckpts" in
  let tokenizer := None in
  let explainers := [SHAP] in
  let test_set := None in
  let device := cpu in
  eval_models class_name str_of_score from_pretrained infidelity_mask_top_k
    path tokenizer explainers test_set device default_ptg.

(** X18. The entry point writes its chart or nothing: when it returns,
    the file system holds exactly one more file, a chart at a path that
    did not exist; when it raises, whether in discovery, in scoring or in
    [plt.savefig], the file system is as it was.  It always ends. *)
Theorem main_writes_one_chart_or_nothing w :
  match (main w).1 with
  | Return _ =>
      ∃ file_path fig,
        w_fs w !! file_path = None ∧
        w_fs (main w).2
        = <[file_path := Inode (w_clock w) (Image fig 300)]> (w_fs w)
  | Raise _ => w_fs (main w).2 = w_fs w
  | Unfinished => False
  end.
Proof.
  apply (single_class_run_cases class_name str_of_score from_pretrained
           infidelity_mask_top_k "./ckpts" None SHAP None cpu default_ptg w).
Qed.

End Main.

(** * A concrete run

    The layout of the design document's scenario: [base/] holds an old
    and a new checkpoint, [pruned/] one checkpoint, [empty/] none, and the
    root also holds a regular file.  The directory of the charts,
    [results/figs], exists and is empty. *)

Module Example.

Inductive model : Type :=
| BertModel (ckpt : string)
| DistilBertModel (ckpt : string).

Definition class_name (m : model) : string :=
  match m with
  | BertModel _ => "BertForSequenceClassification"
  | DistilBertModel _ => "DistilBertForSequenceClassification"
  end.

(** Scores are shown as integers here. *)
Definition str_of_score (s : Z) : string := pretty s.

Abbreviation filesystem := (gmap string (@inode Z)).

(** Every checkpoint on disk holds a Bert model; a missing path cannot
    be loaded. *)
Definition from_pretrained (fs : filesystem) (ckpt : string)
  : exn + model :=
  match fs !! ckpt with
  | Some _ => inr (BertModel ckpt)
  | None => inl (CollaboratorError ("no checkpoint at " +:+ ckpt))
  end.

(** A metric that consumes one random number per call. *)
Definition metric (ev : @Evaluator model unit unit) (test_set : unit)
    (k : nat) (ptg : unit) (g : nat) : (exn + Z) * nat :=
  (inr (Z.of_nat (g + 10 * ev_id ev)), S g).

(** A metric that raises for LIME explainers once the generator has been
    used three times. *)
Definition failing_metric (ev : @Evaluator model unit unit) (test_set : unit)
    (k : nat) (ptg : unit) (g : nat) : (exn + Z) * nat :=
  match exp_class (ev_explainer ev) with
  | LIME =>
      if decide (g < 3) then (inr (Z.of_nat g), S g)
      else (inl (CollaboratorError "scoring failed"), S g)
  | _ => (inr (Z.of_nat g), S g)
  end.

Definition ckpts : filesystem :=
  list_to_map [
    ("./ckpts", Inode 10 (Directory ["base"; "README"; "empty"; "pruned"]));
    ("./ckpts/README", Inode 10 Regular);
    ("./ckpts/base", Inode 20 (Directory ["ckpt_old"; "ckpt_new"]));
    ("./ckpts/base/ckpt_old", Inode 1 Regular);
    ("./ckpts/base/ckpt_new", Inode 2 Regular);
    ("./ckpts/empty", Inode 5 (Directory []));
    ("./ckpts/pruned", Inode 30 (Directory ["ckpt"]));
    ("./ckpts/pruned/ckpt", Inode 3 Regular);
    ("results", Inode 40 (Directory ["figs"]));
    ("results/figs", Inode 40 (Directory []))].

Definition world0 : @world Z nat := initial_world ckpts 100 0.

Definition discover (path : string) : @M Z nat _ :=
  load_latest_checkpoints class_name from_pretrained path.

Definition run (explainers : list explainer_class) : @M Z nat unit :=
  eval_models class_name str_of_score from_pretrained metric "./ckpts" tt
    explainers tt tt tt.

Definition failing_run (explainers : list explainer_class)
  : @M Z nat unit :=
  eval_models class_name str_of_score from_pretrained failing_metric
    "./ckpts" tt explainers tt tt tt.

(** The models of the scenario, and a collection of three variants. *)
Definition models2 : Dict.t model :=
  [("base", BertModel "./ckpts/base/ckpt_new");
   ("pruned", BertModel "./ckpts/pruned/ckpt")].

Definition models3 : Dict.t model :=
  [("base", BertModel "./ckpts/base/ckpt_new");
   ("l1unstruct", BertModel "./ckpts/l1unstruct/ckpt");
   ("pruned", BertModel "./ckpts/pruned/ckpt")].

Definition bert : option string := Some "BertForSequenceClassification".

(** A root whose variants hold no checkpoint. *)
Definition no_ckpts : filesystem :=
  list_to_map [
    ("./ckpts", Inode 10 (Directory ["base"; "pruned"]));
    ("./ckpts/base", Inode 20 (Directory []));
    ("./ckpts/pruned", Inode 30 (Directory []));
    ("results", Inode 40 (Directory ["figs"]));
    ("results/figs", Inode 40 (Directory []))].

(** Charts of an earlier run are on disk. *)
Definition with_charts : filesystem :=
  <["results/figs" :=
      Inode 60 (Directory ["SHAP_topk_None.png"; "SHAP_topk_None_1.png"])]>
    (<["results/figs/SHAP_topk_None.png" := Inode 50 Regular]>
       (<["results/figs/SHAP_topk_None_1.png" := Inode 60 Regular]>
          no_ckpts)).


(** The evaluators that [build_evaluators [SHAP; LIME] models2] creates
    in a new process. *)
Definition evaluator (cls : explainer_class) (n : nat) (m : model)
  : @Evaluator model unit unit :=
  make_evaluator tt tt cls n m.

Definition shap_row : Dict.t (@Evaluator model unit unit) :=
  [("base", evaluator SHAP 0 (BertModel "./ckpts/base/ckpt_new"));
   ("pruned", evaluator SHAP 2 (BertModel "./ckpts/pruned/ckpt"))].

Definition lime_base : @Evaluator model unit unit :=
  evaluator LIME 4 (BertModel "./ckpts/base/ckpt_new").

Definition lime_pruned : @Evaluator model unit unit :=
  evaluator LIME 6 (BertModel "./ckpts/pruned/ckpt").

Definition matrix2 : Dict.t (Dict.t (@Evaluator model unit unit)) :=
  [("SHAP", shap_row); ("LIME", [("base", lime_base); ("pruned", lime_pruned)])].

(** The worlds that the failing run goes through: after discovery, after
    the matrix is built, after SHAP is charted, after LIME's first score. *)
Definition discovered : @world Z nat :=
  (discover "./ckpts"
     (with_stdout ["Loading models from ./ckpts"] world0)).2.

Definition built : @world Z nat :=
  with_next_id 8
    (with_stdout
       (w_stdout discovered ++
        ["Creating evaluators for explanations of BertForSequenceClassification models..."])
       discovered).

Definition shap_done : @world Z nat :=
  (for_each [("SHAP", shap_row)]
     (evaluate_explainer str_of_score failing_metric bert tt tt) tt built).2.

Definition lime_started : @world Z nat :=
  (for_each [("base", lime_base)]
     (score_model str_of_score failing_metric "LIME" tt tt) Dict.empty
     (announce "LIME" shap_done)).2.

(** A world with the paths of [world0] and the same state of the random
    generator, in which everything else differs: the files are newer, the
    current figure holds a bar, a line has been printed, objects have been
    allocated and a checkpoint has been read. *)
Definition touch (i : @inode Z) : @inode Z :=
  Inode (st_mtime i + 1000) (st_data i).

Definition other_world : @world Z nat :=
  {| w_fs := touch <$> ckpts;
     w_clock := 200;
     w_figure :=
       {| fig_bars := [(0, 7%Z)]; fig_xticks := Some ([0], ["earlier"]);
          fig_xlabel := "Model"; fig_ylabel := "Infidelity";
          fig_title := "An earlier chart" |};
     w_stdout := ["Chart saved to results/figs/earlier.png"];
     w_rng := 0;
     w_next_id := 40;
     w_load_calls := ["./ckpts/base/ckpt_old"] |}.

(** Witness of C1 on the scenario: the model of [base] comes from
    [ckpt_new], the newer of its two entries. *)
Lemma C1_latest_checkpoint_witness :
  discover "./ckpts" world0
  = (Return (models2, bert),
     with_stdout ["Loaded ./ckpts/base/./ckpts/base/ckpt_new";
                  "Loaded ./ckpts/pruned/./ckpts/pruned/ckpt"]
       (with_load_calls ["./ckpts/base/ckpt_new"; "./ckpts/pruned/ckpt"]
          world0)) ∧
  ∃ c m, newest ckpts "./ckpts/base" c ∧ from_pretrained ckpts c = inr m ∧
         Dict.get models2 "base" = Some m.
Proof.
  assert (Hrun : discover "./ckpts" world0
    = (Return (models2, bert),
       with_stdout ["Loaded ./ckpts/base/./ckpts/base/ckpt_new";
                    "Loaded ./ckpts/pruned/./ckpts/pruned/ckpt"]
         (with_load_calls ["./ckpts/base/ckpt_new"; "./ckpts/pruned/ckpt"]
            world0))) by (vm_compute; reflexivity).
  split; [exact Hrun|].
  destruct (C1_latest_checkpoint class_name from_pretrained "./ckpts" world0
              _ _ Hrun) as [_ Hloaded].
  apply (Hloaded models2 bert ["base"; "README"; "empty"; "pruned"] "base"
           ["ckpt_old"; "ckpt_new"]).
  - reflexivity.
  - vm_compute; reflexivity.
  - apply elem_of_cons; by left.
  - vm_compute; reflexivity.
  - discriminate.
Defined.

(** The scenario of the design document for C2: with [base.png] and
    [base_1.png] on disk the chart goes to [base_2.png]. *)
Example C2_third_export :
  unique_file_path "results/figs/SHAP_topk_None" ".png"
    (initial_world with_charts 100 0)
  = (Return "results/figs/SHAP_topk_None_2.png",
     initial_world with_charts 100 0).
Proof. vm_compute. reflexivity. Qed.

(** Witness of C3: [./missing] is not in the file system. *)
Lemma C3_not_a_directory_witness :
  isdir (w_fs world0) "./missing" = false ∧
  discover "./missing" world0
  = (Raise (FileNotFoundError
              "The directory './missing' does not exist or is not a directory."),
     world0) ∧
  eval_models class_name str_of_score from_pretrained metric "./missing" tt
    [SHAP] tt tt tt world0
  = (Raise (FileNotFoundError
              "The directory './missing' does not exist or is not a directory."),
     with_stdout ["Loading models from ./missing"] world0).
Proof.
  split; [vm_compute; reflexivity|].
  apply (C3_not_a_directory class_name str_of_score from_pretrained metric
           "./missing" world0 tt [SHAP] tt tt tt).
  vm_compute; reflexivity.
Defined.

(** Witness of C4: two classes over three variants give six evaluators. *)
Lemma C4_evaluator_matrix_witness :
  Dict.wf models3 ∧
  ∃ matrix,
    build_evaluators [SHAP; LIME] models3 tt tt world0
    = (Return matrix, with_next_id 12 world0) ∧
    Dict.keys matrix = ["SHAP"; "LIME"] ∧
    matrix_size matrix = 6.
Proof.
  assert (Hwf : Dict.wf models3).
  { unfold Dict.wf. vm_compute. apply (bool_decide_unpack _). vm_compute.
    exact I. }
  assert (Hnodup : NoDup [SHAP; LIME]).
  { apply (bool_decide_unpack _). vm_compute. exact I. }
  split; [exact Hwf|].
  destruct (C4_evaluator_matrix (Score:=Z) (Rng:=nat) [SHAP; LIME] models3
              tt tt world0 Hwf)
    as (matrix & Hrun & _ & _ & Hkeys & _ & _ & _ & _ & _ & _ & Hsix).
  exists matrix. split_and!.
  - exact Hrun.
  - exact (Hkeys Hnodup).
  - apply Hsix; [exact Hnodup|reflexivity|reflexivity].
Defined.

(** Witness of C5: the metric raises at the fourth score, LIME's second;
    the run ends with that error, SHAP's chart is on disk and LIME's is
    not. *)
Lemma C5_scoring_error_aborts_witness :
  failing_metric lime_pruned tt 1 tt (w_rng lime_started)
  = (inl (CollaboratorError "scoring failed"), 4) ∧
  failing_run [SHAP; LIME] world0
  = (Raise (CollaboratorError "scoring failed"), with_rng 4 lime_started) ∧
  w_fs (with_rng 4 lime_started) = w_fs shap_done ∧
  is_Some (w_fs shap_done
           !! "results/figs/SHAP_topk_BertForSequenceClassification.png") ∧
  w_fs shap_done
    !! "results/figs/LIME_topk_BertForSequenceClassification.png" = None.
Proof.
  assert (Hraise : failing_metric lime_pruned tt 1 tt (w_rng lime_started)
                   = (inl (CollaboratorError "scoring failed"), 4))
    by (vm_compute; reflexivity).
  destruct (C5_scoring_error_aborts class_name str_of_score from_pretrained
              failing_metric "./ckpts" tt [SHAP; LIME] tt tt tt
              world0 models2 bert discovered
              [("SHAP", shap_row)] "LIME" [("base", lime_base)] "pruned"
              lime_pruned [] [] built shap_done [("base", 2%Z)] lime_started
              (CollaboratorError "scoring failed") 4)
    as (_ & _ & Hrun & Hfs & _).
  - vm_compute; reflexivity.
  - vm_compute; reflexivity.
  - vm_compute; reflexivity.
  - vm_compute; reflexivity.
  - exact Hraise.
  - split_and!; [exact Hraise|exact Hrun|exact Hfs| |].
    + vm_compute. eexists. reflexivity.
    + vm_compute. reflexivity.
Defined.

(** Witness of C7: [empty/] has no entries. *)
Lemma C7_empty_variant_skipped_witness :
  listdir (w_fs world0) "./ckpts/empty" = inr [] ∧
  discover "./ckpts" world0
  = for_each ["base"; "README"; "pruned"]
      (load_variant class_name from_pretrained "./ckpts")
      (Dict.empty, None) world0 ∧
  ∀ models arch w',
    discover "./ckpts" world0 = (Return (models, arch), w') →
    Dict.get models "empty" = None.
Proof.
  assert (Hempty : listdir (w_fs world0) (path_join "./ckpts" "empty")
                   = inr []) by (vm_compute; reflexivity).
  destruct (C7_empty_variant_skipped class_name from_pretrained "./ckpts"
              world0 ["base"; "README"; "empty"; "pruned"] "empty")
    as (Hrun & Homitted & _).
  - vm_compute; reflexivity.
  - apply (bool_decide_unpack _). vm_compute. exact I.
  - exact Hempty.
  - split_and!; [exact Hempty|exact Hrun|exact Homitted].
Defined.

(** Witness of C8: the label is the class of the model of [base], the
    first variant that is loaded. *)
Lemma C8_architecture_label_witness :
  (∀ m, class_name m ≠ "") ∧
  ∃ calls,
    w_load_calls (discover "./ckpts" world0).2 = w_load_calls world0 ++ calls ∧
    match calls with
    | [] => bert = None ∧ models2 = Dict.empty
    | c :: _ =>
        ∃ m, from_pretrained (w_fs world0) c = inr m ∧
             bert = Some (class_name m)
    end.
Proof.
  assert (Hname : ∀ m, class_name m ≠ "") by (intros []; discriminate).
  split; [exact Hname|].
  apply (C8_architecture_label class_name from_pretrained "./ckpts" world0
           models2 bert (discover "./ckpts" world0).2 Hname).
  vm_compute; reflexivity.
Defined.

(** Witness of C9: [world0] and [other_world] agree on the state of the
    random generator and on the paths of their files, and on nothing
    else. *)
Lemma C9_aggregation_deterministic_witness :
  w_rng world0 = w_rng other_world ∧
  w_fs world0 ≠ w_fs other_world ∧
  same_paths (w_fs world0) (w_fs other_world) ∧
  (collect_infidelities str_of_score metric "LIME"
     [("base", lime_base); ("pruned", lime_pruned)] tt tt world0).1
  = (collect_infidelities str_of_score metric "LIME"
       [("base", lime_base); ("pruned", lime_pruned)] tt tt other_world).1 ∧
  (collect_infidelities str_of_score metric "LIME"
     [("base", lime_base); ("pruned", lime_pruned)] tt tt
     (announce "LIME"
        (for_each [("SHAP", shap_row)]
           (evaluate_explainer str_of_score metric bert tt tt) tt
           world0).2)).1
  = (collect_infidelities str_of_score metric "LIME"
       [("base", lime_base); ("pruned", lime_pruned)] tt tt
       (announce "LIME"
          (for_each [("SHAP", shap_row)]
             (evaluate_explainer str_of_score metric bert tt tt) tt
             other_world).2)).1 ∧
  (evaluate_all str_of_score metric matrix2 bert tt tt world0).1
  = (evaluate_all str_of_score metric matrix2 bert tt tt other_world).1.
Proof.
  assert (Hrng : w_rng world0 = w_rng other_world)
    by (vm_compute; reflexivity).
  assert (Hsame : same_paths (w_fs world0) (w_fs other_world)).
  { intros p. change (w_fs world0) with ckpts.
    change (w_fs other_world) with (touch <$> ckpts).
    unfold path_exists, isdir. rewrite lookup_fmap.
    destruct (ckpts !! p) as [[t []]|]; done. }
  destruct (C9_aggregation_deterministic str_of_score metric matrix2 bert
              tt tt world0 other_world Hrng)
    as (Hcollect & Hreached & Hall).
  destruct (Hall Hsame) as [Hruns _].
  split_and!; [exact Hrng| |exact Hsame|apply Hcollect| |exact Hruns].
  - intros Hfs.
    apply (f_equal (λ fs : filesystem, fs !! "results/figs")) in Hfs.
    vm_compute in Hfs. discriminate.
  - apply (Hreached [("SHAP", shap_row)] "LIME"
             [("base", lime_base); ("pruned", lime_pruned)] []).
    + reflexivity.
    + vm_compute; reflexivity.
    + vm_compute; reflexivity.
Defined.



(** C6. On the scenario, charted for SHAP and then LIME, the chart
    written for LIME is titled for LIME and labels two variants, but
    holds four bars: SHAP's two bars, left in the current figure, and
    LIME's two. *)
Theorem C6_second_chart_keeps_first_bars :
  (run [SHAP; LIME] world0).1 = Return tt ∧
  (collect_infidelities str_of_score metric "LIME"
     [("base", lime_base); ("pruned", lime_pruned)] tt tt
     (with_rng 2 world0)).1
  = Return [("base", 52%Z); ("pruned", 73%Z)] ∧
  w_fs (run [SHAP; LIME] world0).2
    !! "results/figs/LIME_topk_BertForSequenceClassification.png"
  = Some (Inode 100
            (Image
               {| fig_bars := [(0, 10%Z); (1, 31%Z); (0, 52%Z); (1, 73%Z)];
                  fig_xticks := Some ([0; 1], ["base"; "pruned"]);
                  fig_xlabel := "Model";
                  fig_ylabel := "Infidelity";
                  fig_title :=
                    "Infidelity of LIME Explanations for Differently Pruned Versions of BertForSequenceClassification" |}
               300)).
Proof. split_and!; vm_compute; reflexivity. Qed.

(** ** Further scenarios *)

(** A variant whose two newest entries have the same modification
    time. *)
Definition tied : filesystem :=
  list_to_map [
    ("./r", Inode 1 (Directory ["notes.txt"; "v"; "none"]));
    ("./r/notes.txt", Inode 1 Regular);
    ("./r/v", Inode 1 (Directory ["a"; "b"; "c"]));
    ("./r/v/a", Inode 5 Regular);
    ("./r/v/b", Inode 9 Regular);
    ("./r/v/c", Inode 9 Regular);
    ("./r/none", Inode 1 (Directory []))].

(** A loader that cannot read the checkpoint of [pruned]. *)
Definition broken_loader (fs : filesystem) (ckpt : string) : exn + model :=
  if decide (ckpt = "./ckpts/pruned/ckpt")
  then inl (CollaboratorError "corrupt checkpoint")
  else from_pretrained fs ckpt.



Lemma discover_world0 :
  discover "./ckpts" world0 = (Return (models2, bert), (discover "./ckpts" world0).2).
Proof. vm_compute. reflexivity. Qed.

Lemma listing_nodup : NoDup ["base"; "README"; "empty"; "pruned"].
Proof. apply (bool_decide_unpack _). vm_compute. exact I. Qed.

(** Witness of X1: of the four entries of the root, [base] and [pruned]
    are directories with checkpoints. *)
Lemma discovery_keys_in_listing_order_witness :
  Dict.keys models2
  = filter (λ d, has_checkpoints ckpts "./ckpts" d = true)
      ["base"; "README"; "empty"; "pruned"].
Proof.
  apply (discovery_keys_in_listing_order class_name from_pretrained "./ckpts"
           world0 models2 bert (discover "./ckpts" world0).2
           ["base"; "README"; "empty"; "pruned"] discover_world0).
  - vm_compute; reflexivity.
  - exact listing_nodup.
Defined.

(** Witness of X2: [b] and [c] are equally new; [b], listed first, is
    loaded. *)
Lemma discovery_loads_first_newest_witness :
  ∃ name m,
    first_newest tied "./r/v" ["a"; "b"; "c"] name ∧
    (∀ name', first_newest tied "./r/v" ["a"; "b"; "c"] name' →
              name' = name) ∧
    from_pretrained tied (path_join "./r/v" name) = inr m ∧
    Dict.get [("v", BertModel "./r/v/b")] "v" = Some m.
Proof.
  apply (discovery_loads_first_newest class_name from_pretrained "./r"
           (initial_world tied 0 0) [("v", BertModel "./r/v/b")] bert
           (discover "./r" (initial_world tied 0 0)).2
           ["notes.txt"; "v"; "none"] "v" ["a"; "b"; "c"]).
  - vm_compute; reflexivity.
  - vm_compute; reflexivity.
  - apply elem_of_cons; right; apply elem_of_cons; by left.
  - vm_compute; reflexivity.
  - discriminate.
Defined.

(** Witness of X3: the checkpoint of [pruned] cannot be read; the model
    of [base], loaded before, is dropped with the run. *)
Lemma load_error_is_fatal_witness :
  (eval_models class_name str_of_score broken_loader metric "./ckpts" tt
     [SHAP] tt tt tt world0).1
  = Raise (CollaboratorError "corrupt checkpoint") ∧
  w_fs (eval_models class_name str_of_score broken_loader metric "./ckpts" tt
          [SHAP] tt tt tt world0).2 = ckpts.
Proof.
  destruct (load_error_is_fatal class_name str_of_score broken_loader metric
              "./ckpts" tt [SHAP] tt tt tt world0
              ["base"; "README"; "empty"] "pruned" []
              ([("base", BertModel "./ckpts/base/ckpt_new")], bert)
              (for_each ["base"; "README"; "empty"]
                 (load_variant class_name broken_loader "./ckpts")
                 (Dict.empty, None)
                 (with_stdout ["Loading models from ./ckpts"] world0)).2
              ["ckpt"] "ckpt" (CollaboratorError "corrupt checkpoint"))
    as (_ & Hrun & Hfs & _).
  - vm_compute; reflexivity.
  - vm_compute; reflexivity.
  - vm_compute; reflexivity.
  - exists [], [], 3%Z. split_and!.
    + reflexivity.
    + vm_compute; reflexivity.
    + by intros e ?%elem_of_nil.
    + by intros e ?%elem_of_nil.
  - vm_compute; reflexivity.
  - rewrite Hrun. split; [reflexivity|]. exact Hfs.
Defined.

(** Witness of X4: the older checkpoint of [base] has a modification
    time too. *)
Lemma discovery_needs_every_mtime_witness :
  is_Some (ckpts !! "./ckpts/base/ckpt_old").
Proof.
  apply (discovery_needs_every_mtime class_name from_pretrained "./ckpts"
           world0 models2 bert (discover "./ckpts" world0).2
           ["base"; "README"; "empty"; "pruned"]
           "base" ["ckpt_old"; "ckpt_new"] "ckpt_old" discover_world0).
  - vm_compute; reflexivity.
  - apply elem_of_cons; by left.
  - vm_compute; reflexivity.
  - apply elem_of_cons; by left.
Defined.

(** Witness of X5: every entry of the scenario has a modification time,
    and [from_pretrained] reads every file that exists. *)
Lemma discovery_returns_witness :
  ∃ models arch w',
    discover "./ckpts" world0 = (Return (models, arch), w') ∧
    same_resources world0 w'.
Proof.
  apply (discovery_returns class_name from_pretrained "./ckpts"
           ["base"; "README"; "empty"; "pruned"] world0).
  - vm_compute; reflexivity.
  - intros d entries e Hd Hentries He.
    repeat (apply elem_of_cons in Hd as [->|Hd]);
      [..|by apply elem_of_nil in Hd];
      vm_compute in Hentries; try discriminate;
      injection Hentries as <-;
      repeat (apply elem_of_cons in He as [->|He]);
      try (by apply elem_of_nil in He);
      vm_compute; by eexists.
  - intros d c _ (entries & name & t & _ & _ & _ & Hc & _).
    change (w_fs world0) with ckpts in *.
    unfold from_pretrained. unfold getmtime in Hc.
    destruct (ckpts !! c); [by eexists|discriminate].
Defined.

(** Witness of X7: two models, two checkpoints read. *)
Lemma one_checkpoint_read_per_model_witness :
  ∃ calls,
    w_load_calls (discover "./ckpts" world0).2 = w_load_calls world0 ++ calls ∧
    length calls = Dict.len models2.
Proof.
  apply (one_checkpoint_read_per_model class_name from_pretrained "./ckpts"
           world0 models2 bert (discover "./ckpts" world0).2
           ["base"; "README"; "empty"; "pruned"]
           discover_world0).
  - vm_compute; reflexivity.
  - exact listing_nodup.
Defined.

(** Witness of X8: SHAP is requested twice; its row holds the evaluators
    created for the second request, objects 4 to 7. *)
Lemma last_request_of_a_class_wins_witness :
  ∃ matrix w',
    build_evaluators [SHAP; SHAP; LIME] models2 tt tt world0
    = (Return matrix, w') ∧
    Dict.get matrix "SHAP"
    = Some [("base", evaluator SHAP 4 (BertModel "./ckpts/base/ckpt_new"));
            ("pruned", evaluator SHAP 6 (BertModel "./ckpts/pruned/ckpt"))].
Proof.
  apply (last_request_of_a_class_wins (Score:=Z) (Rng:=nat) [SHAP] SHAP [LIME]
           models2 tt tt world0).
  - apply (bool_decide_unpack _). vm_compute. exact I.
  - apply (bool_decide_unpack _). vm_compute. exact I.
Defined.

(** Witness of X9: the scores of LIME on the scenario. *)
Lemma infidelities_follow_the_evaluators_witness :
  Dict.keys [("base", 50%Z); ("pruned", 71%Z)] = ["base"; "pruned"] ∧
  ∃ ev g, Dict.get [("base", lime_base); ("pruned", lime_pruned)] "pruned"
          = Some ev ∧
          (metric ev tt 1 tt g).1 = inr 71%Z.
Proof.
  destruct (infidelities_follow_the_evaluators str_of_score metric "LIME"
              [("base", lime_base); ("pruned", lime_pruned)] tt tt world0
              [("base", 50%Z); ("pruned", 71%Z)]
              (collect_infidelities str_of_score metric "LIME"
                 [("base", lime_base); ("pruned", lime_pruned)] tt tt
                 world0).2)
    as (Hkeys & Hvalues & _).
  - apply (bool_decide_unpack _). vm_compute. exact I.
  - vm_compute; reflexivity.
  - split; [exact Hkeys|]. apply Hvalues. reflexivity.
Defined.



(** Witness of X12: with [base.png] and [base_1.png] on disk the chart
    goes to [base_2.png]. *)
Lemma export_takes_next_suffix_witness :
  ∃ w',
    save_chart "SHAP" None (initial_world with_charts 100 (0 : nat))
    = (Return tt, w') ∧
    w_fs w'
    = <["results/figs/SHAP_topk_None_2.png" :=
          Inode 100 (Image fresh_figure 300)]> with_charts.
Proof.
  destruct (export_takes_next_suffix "SHAP" None
              (initial_world with_charts 100 (0 : nat)) 2)
    as (w' & Hrun & Hfs & _).
  - vm_compute; reflexivity.
  - intros [|[|j]] Hj; [vm_compute; by eexists..|lia].
  - vm_compute; reflexivity.
  - exists w'. split; [exact Hrun|exact Hfs].
Defined.

(** Witness of X13: the scenario, charted for SHAP and LIME. *)
Lemma successful_run_writes_every_chart_witness :
  ∃ w', run [SHAP; LIME] world0 = (Return tt, w') ∧
        size (w_fs w') = size ckpts + 2.
Proof.
  destruct (successful_run_writes_every_chart class_name str_of_score
              from_pretrained metric "./ckpts" tt [SHAP; LIME] tt tt tt
              world0 models2 bert discovered)
    as (w' & Hrun & _ & _ & Hsize).
  - vm_compute; reflexivity.
  - intros ev g. by eexists _, _.
  - vm_compute; reflexivity.
  - vm_compute; reflexivity.
  - exists w'. split; [exact Hrun|]. apply Hsize.
    apply (bool_decide_unpack _). vm_compute. exact I.
Defined.


(** Witness of X16: the label of the scenario is the class of the model
    of [base]. *)
Lemma label_is_class_of_first_model_witness :
  bert = class_name <$> head (Dict.values models2).
Proof.
  apply (label_is_class_of_first_model class_name from_pretrained "./ckpts"
           world0 models2 bert (discover "./ckpts" world0).2
           ["base"; "README"; "empty"; "pruned"]).
  - intros []; discriminate.
  - exact discover_world0.
  - vm_compute; reflexivity.
  - exact listing_nodup.
Defined.



End Example.
